(** * Rendezvous: the API-mediation layer of [server.js] and the map midpoint

    A shallow embedding of the request mediation code of the Rendezvous
    backend (rate limiter, session quota, per-service result cache with
    expiry and size-based purge, batch geocoding) and of the midpoint
    computation of the [MapView] component.

    Conventions.
    - [Date.now()] is an integer number of milliseconds; every function that
      reads the clock takes the value read as an argument [now : Z].  All
      counters and timestamps stay far below 2^53, where JavaScript numbers
      are exact integers, so they are modelled in [Z].
    - A JavaScript [Map] iterates in insertion order and [set] on a key that
      is already present keeps the key's position: it is an association list.
    - [handleCachedRequest] is an [async] function with one suspension
      point, [await api.get(apiUrl)].  The code before it and the code after
      it each run without interruption; they are modelled as two functions
      and composed for a call that is answered before anything else runs.
    - Coordinates are IEEE 754 binary64 numbers, as in JavaScript. *)

From Stdlib Require Import ZArith String Ascii Bool Lia List.
From Stdlib Require Import Sorted Permutation.
From Stdlib Require Import PrimFloat.
From Stdlib Require Import QArith Qround Lqa.
Import ListNotations.

#[local] Set Warnings "-inexact-float".

Local Open Scope string_scope.
Local Open Scope Z_scope.

(** ** Data model *)

(** The three services; the strings ['geocoding'], ['places'], ['details']
    that index [cache], [CACHE_EXPIRY], [CACHE_LIMITS] and [requestStats]. *)
Inductive ApiType : Type :=
| geocoding
| places
| details.

(** [response.data]: the parsed JSON body of the provider, of which the code
    inspects only [status]. *)
Record Payload : Type := mkPayload {
  status : string;
  body : string
}.

(** A cached item [{ data, timestamp, lastAccessed }]. *)
Record CacheEntry : Type := mkEntry {
  data : Payload;
  timestamp : Z;
  lastAccessed : Z
}.

(** A JavaScript [Map] from cache key to cached item. *)
Definition JsMap : Type := list (string * CacheEntry).

Fixpoint map_get (k : string) (m : JsMap) : option CacheEntry :=
  match m with
  | [] => None
  | (k', e) :: r => if String.eqb k k' then Some e else map_get k r
  end.

Fixpoint map_set (k : string) (e : CacheEntry) (m : JsMap) : JsMap :=
  match m with
  | [] => [(k, e)]
  | (k', e') :: r =>
      if String.eqb k k' then (k', e) :: r else (k', e') :: map_set k e r
  end.

Fixpoint map_delete (k : string) (m : JsMap) : JsMap :=
  match m with
  | [] => []
  | (k', e') :: r =>
      if String.eqb k k' then r else (k', e') :: map_delete k r
  end.

Definition map_keys (m : JsMap) : list string := map fst m.

(** [const cache = { geocoding: new Map(), places: new Map(), details: new Map() }] *)
Record Cache : Type := mkCache {
  cache_geocoding : JsMap;
  cache_places : JsMap;
  cache_details : JsMap
}.

Definition bucket (type : ApiType) (c : Cache) : JsMap :=
  match type with
  | geocoding => cache_geocoding c
  | places => cache_places c
  | details => cache_details c
  end.

Definition set_bucket (type : ApiType) (m : JsMap) (c : Cache) : Cache :=
  match type with
  | geocoding => mkCache m (cache_places c) (cache_details c)
  | places => mkCache (cache_geocoding c) m (cache_details c)
  | details => mkCache (cache_geocoding c) (cache_places c) m
  end.

Definition empty_cache : Cache := mkCache [] [] [].

(** The tables [CACHE_EXPIRY] (milliseconds) and [CACHE_LIMITS] (entries). *)
Record Config : Type := mkConfig {
  CACHE_EXPIRY : ApiType -> Z;
  CACHE_LIMITS : ApiType -> nat
}.

Definition server_config : Config := {|
  CACHE_EXPIRY := fun type =>
    match type with
    | geocoding => 30 * 60 * 1000
    | places => 15 * 60 * 1000
    | details => 60 * 60 * 1000
    end;
  CACHE_LIMITS := fun type =>
    match type with
    | geocoding => 1000%nat
    | places => 500%nat
    | details => 500%nat
    end
|}.

(** [requestStats]; [count_*] are the fields named after the services. *)
Record RequestStats : Type := mkStats {
  total : Z;
  count_geocoding : Z;
  count_places : Z;
  count_details : Z;
  limit : Z;
  lastReset : Z
}.

Definition count (type : ApiType) (s : RequestStats) : Z :=
  match type with
  | geocoding => count_geocoding s
  | places => count_places s
  | details => count_details s
  end.

(** [requestStats.total++; requestStats[type]++] *)
Definition recordCall (type : ApiType) (s : RequestStats) : RequestStats :=
  let s1 := mkStats (total s + 1) (count_geocoding s) (count_places s)
                    (count_details s) (limit s) (lastReset s) in
  match type with
  | geocoding =>
      mkStats (total s1) (count_geocoding s1 + 1) (count_places s1)
              (count_details s1) (limit s1) (lastReset s1)
  | places =>
      mkStats (total s1) (count_geocoding s1) (count_places s1 + 1)
              (count_details s1) (limit s1) (lastReset s1)
  | details =>
      mkStats (total s1) (count_geocoding s1) (count_places s1)
              (count_details s1 + 1) (limit s1) (lastReset s1)
  end.

(** ** Rate limiter *)

Record RateLimiter : Type := mkLimiter {
  lastGeocodeRequest : Z;
  lastPlacesRequest : Z;
  lastDetailsRequest : Z;
  minInterval : Z
}.

Definition lastRequestOf (type : ApiType) (r : RateLimiter) : Z :=
  match type with
  | geocoding => lastGeocodeRequest r
  | places => lastPlacesRequest r
  | details => lastDetailsRequest r
  end.

(** [rateLimiter.canMakeRequest(type)].  Each [case] of the [switch] reads
    the stored timestamp into [lastRequest] and overwrites it with [now]
    before the interval is compared.  The [default] case is not reachable
    from a value of [ApiType]. *)
Definition canMakeRequest (type : ApiType) (now : Z) (this : RateLimiter)
  : bool * RateLimiter :=
  let '(lastRequest, this') :=
    match type with
    | geocoding =>
        (lastGeocodeRequest this,
         mkLimiter now (lastPlacesRequest this) (lastDetailsRequest this)
                   (minInterval this))
    | places =>
        (lastPlacesRequest this,
         mkLimiter (lastGeocodeRequest this) now (lastDetailsRequest this)
                   (minInterval this))
    | details =>
        (lastDetailsRequest this,
         mkLimiter (lastGeocodeRequest this) (lastPlacesRequest this) now
                   (minInterval this))
    end in
  if now - lastRequest <? minInterval this' then (false, this')
  else (true, this').

Definition initial_rateLimiter : RateLimiter := mkLimiter 0 0 0 100.

(** ** Session quota *)

Definition initial_requestStats (boot : Z) : RequestStats :=
  mkStats 0 0 0 0 50 boot.

(** The process-wide state of [server.js]. *)
Record Server : Type := mkServer {
  cache : Cache;
  requestStats : RequestStats;
  rateLimiter : RateLimiter
}.

Definition initial_server (boot : Z) : Server :=
  mkServer empty_cache (initial_requestStats boot) initial_rateLimiter.

Definition SESSION_WINDOW : Z := 24 * 60 * 60 * 1000.

(** Every numeric field of [requestStats] except [limit] is zeroed, then
    [lastReset] is set to the clock. *)
Definition resetStats (now : Z) (s : RequestStats) : RequestStats :=
  mkStats 0 0 0 0 (limit s) now.

(** [checkSessionReset()] *)
Definition checkSessionReset (now : Z) (st : Server) : Server :=
  if SESSION_WINDOW <? now - lastReset (requestStats st) then
    mkServer empty_cache (resetStats now (requestStats st)) (rateLimiter st)
  else st.

(** ** Result cache *)

(** A stable sort by an integer key, ascending, computed by insertion: an
    element goes in front of the first element whose key is not smaller,
    so equal keys keep their order. *)
Section StableSort.
Context {A : Type}.
Variable key : A -> Z.

Fixpoint insert_by (x : A) (l : list A) : list A :=
  match l with
  | [] => [x]
  | y :: r => if key x <=? key y then x :: y :: r else y :: insert_by x r
  end.

Fixpoint sort_by (l : list A) : list A :=
  match l with
  | [] => []
  | x :: r => insert_by x (sort_by r)
  end.

(** The order the sort establishes. *)
Definition key_le (x y : A) : Prop := key x <= key y.
End StableSort.

Definition storedAt (en : string * CacheEntry) : Z := timestamp (snd en).

(** [Array.from(cacheMap.entries()).sort((a, b) => a[1].timestamp - b[1].timestamp)]:
    [Array.prototype.sort] is stable, and a stable sort has one result. *)
Definition sort_by_timestamp (l : JsMap) : JsMap := sort_by storedAt l.

(** [Math.floor(entries.length * 0.2)].  The double nearest to 0.2 lies just
    above 1/5, and for every length a bucket of the server can have the
    rounded product has the integer part of [length / 5]
    ([removeCount_is_floor] checks it in binary64 up to length 1001). *)
Definition removeCount (entries : JsMap) : nat := (length entries / 5)%nat.

(** The [for] loop of [manageCacheSize]: delete the keys of the first
    [removeCount] sorted entries. *)
Definition delete_entry (cacheMap : JsMap) (en : string * CacheEntry) : JsMap :=
  map_delete (fst en) cacheMap.

Definition purge (entries : JsMap) (cacheMap : JsMap) : JsMap :=
  fold_left delete_entry (firstn (removeCount entries) entries) cacheMap.

(** [manageCacheSize(type)] *)
Definition manageCacheSize (cfg : Config) (type : ApiType) (c : Cache) : Cache :=
  let cacheMap := bucket type c in
  if (CACHE_LIMITS cfg type <? length cacheMap)%nat then
    let entries := sort_by_timestamp cacheMap in
    set_bucket type (purge entries cacheMap) c
  else c.

(** The cache check that opens [handleCachedRequest]: on a hit the item's
    [lastAccessed] is overwritten in place and its [data] returned. *)
Definition cacheLookup (cfg : Config) (type : ApiType) (cacheKey : string)
    (now : Z) (c : Cache) : option (Payload * Cache) :=
  match map_get cacheKey (bucket type c) with
  | Some cachedItem =>
      if now - timestamp cachedItem <? CACHE_EXPIRY cfg type then
        let touched := mkEntry (data cachedItem) (timestamp cachedItem) now in
        Some (data cachedItem,
              set_bucket type (map_set cacheKey touched (bucket type c)) c)
      else None
  | None => None
  end.

(** The store that closes [handleCachedRequest]:
    [cache[type].set(cacheKey, {...}); manageCacheSize(type)]. *)
Definition cacheStore (cfg : Config) (type : ApiType) (cacheKey : string)
    (payload : Payload) (now : Z) (c : Cache) : Cache :=
  let item := mkEntry payload now now in
  manageCacheSize cfg type
    (set_bucket type (map_set cacheKey item (bucket type c)) c).

(** ** The gateway: [handleCachedRequest] *)

Definition REQUEST_LIMIT_REACHED : string := "Request limit reached".
Definition RATE_LIMIT_REACHED : string :=
  "Rate limit reached, please try again in a moment".
Definition upstream_error (st : string) : string :=
  ("Google Maps API error: " ++ st)%string.

(** How the code before [await api.get(apiUrl)] ends. *)
Inductive Started : Type :=
| CacheHit (d : Payload)
| Refused (message : string)
| Requested.

(** How [api.get] settles: it rejects (transport failure, timeout, HTTP
    error) or resolves with a body. *)
Inductive Response : Type :=
| Failed (message : string)
| Answered (d : Payload).

(** How the promise of [handleCachedRequest] settles. *)
Inductive Result : Type :=
| Resolved (d : Payload)
| Rejected (message : string).

Definition handleCachedRequest_start (cfg : Config) (type : ApiType)
    (cacheKey : string) (now : Z) (st : Server) : Started * Server :=
  match cacheLookup cfg type cacheKey now (cache st) with
  | Some (d, c') => (CacheHit d, mkServer c' (requestStats st) (rateLimiter st))
  | None =>
      if limit (requestStats st) <=? total (requestStats st) then
        (Refused REQUEST_LIMIT_REACHED, st)
      else
        let '(ok, rl) := canMakeRequest type now (rateLimiter st) in
        let st' := mkServer (cache st) (requestStats st) rl in
        if ok then (Requested, st') else (Refused RATE_LIMIT_REACHED, st')
  end.

Definition is_success (d : Payload) : bool :=
  (status d =? "OK")%string || (status d =? "ZERO_RESULTS")%string.

(** The code after the [await], run when the provider's answer arrives at
    time [now]. *)
Definition handleCachedRequest_finish (cfg : Config) (type : ApiType)
    (cacheKey : string) (response : Response) (now : Z) (st : Server)
  : Result * Server :=
  match response with
  | Failed message => (Rejected message, st)
  | Answered d =>
      let st1 :=
        mkServer (cache st) (recordCall type (requestStats st)) (rateLimiter st) in
      if negb (status d =? "OK")%string && negb (status d =? "ZERO_RESULTS")%string
      then (Rejected (upstream_error (status d)), st1)
      else
        let st2 :=
          if is_success d then
            mkServer (cacheStore cfg type cacheKey d now (cache st1))
                     (requestStats st1) (rateLimiter st1)
          else st1 in
        (Resolved d, st2)
  end.

(** A call that nothing interleaves with: started at [now], and, when it
    reaches the provider, answered by [response] at time [arrival].  The
    boolean tells whether the external call was issued. *)
Definition handleCachedRequest (cfg : Config) (type : ApiType)
    (cacheKey : string) (now : Z) (response : Response) (arrival : Z)
    (st : Server) : Result * bool * Server :=
  match handleCachedRequest_start cfg type cacheKey now st with
  | (CacheHit d, st') => (Resolved d, false, st')
  | (Refused message, st') => (Rejected message, false, st')
  | (Requested, st') =>
      let '(r, st'') :=
        handleCachedRequest_finish cfg type cacheKey response arrival st' in
      (r, true, st'')
  end.

(** ** Inbound operations *)

(** [String.prototype.trim] and [toLowerCase] on the ASCII range: white
    space is the space and the control characters 9 to 13, and the letters
    that change are [A] to [Z].  The two functions are those of JavaScript
    on strings of ASCII characters ([ascii_only] below); outside that range
    JavaScript also trims the Unicode spaces and lowers the other letters. *)
Definition is_whitespace (c : ascii) : bool :=
  let n := nat_of_ascii c in
  ((n =? 32) || ((9 <=? n) && (n <=? 13)))%nat.

Fixpoint trimStart (s : string) : string :=
  match s with
  | EmptyString => EmptyString
  | String c r => if is_whitespace c then trimStart r else s
  end.

Fixpoint trimEnd (s : string) : string :=
  match s with
  | EmptyString => EmptyString
  | String c r =>
      match trimEnd r with
      | EmptyString => if is_whitespace c then EmptyString else String c EmptyString
      | r' => String c r'
      end
  end.

Definition trim (s : string) : string := trimEnd (trimStart s).

Definition lower (c : ascii) : ascii :=
  let n := nat_of_ascii c in
  if ((65 <=? n) && (n <=? 90))%nat then ascii_of_nat (n + 32) else c.

Fixpoint toLowerCase (s : string) : string :=
  match s with
  | EmptyString => EmptyString
  | String c r => String (lower c) (toLowerCase r)
  end.

(** A string of ASCII characters: every code is below 128. *)
Fixpoint ascii_only (s : string) : bool :=
  match s with
  | EmptyString => true
  | String c r => (nat_of_ascii c <? 128)%nat && ascii_only r
  end.

(** [address.toLowerCase().trim()] *)
Definition normalizedAddress (address : string) : string :=
  trim (toLowerCase address).

(** What a route handler sends: [res.json(body)], [res.status(400).json]
    or [res.status(500).json]. *)
Inductive HttpReply (A : Type) : Type :=
| Json (payload : A)
| BadRequest (error : string)
| ServerError (error : string).
Arguments Json {A} _.
Arguments BadRequest {A} _.
Arguments ServerError {A} _.

(** [GET /api/geocode], after the middleware that calls
    [checkSessionReset].  [address] is [req.query.address]; [!address]
    holds when it is missing or the empty string.  The boolean tells whether
    the provider was called. *)
Definition api_geocode (cfg : Config) (address : option string) (now : Z)
    (response : Response) (arrival : Z) (st : Server)
  : HttpReply Payload * bool * Server :=
  let st0 := checkSessionReset now st in
  match address with
  | None => (BadRequest "Address is required", false, st0)
  | Some EmptyString => (BadRequest "Address is required", false, st0)
  | Some a =>
      let cacheKey := normalizedAddress a in
      match handleCachedRequest cfg geocoding cacheKey now response arrival st0 with
      | (Resolved d, called, st1) => (Json d, called, st1)
      | (Rejected message, called, st1) => (ServerError message, called, st1)
      end
  end.

(** What the front end checks before it calls [/api/geocode]
    ([fetchCoordinates]: [if (!address.trim()) throw ...]). *)
Definition fetchCoordinates_accepts (address : string) : bool :=
  negb (trim address =? "")%string.

(** ** Batch geocoding *)

(** The provider and the network as one run sees them: the settlement of
    the call made for [address] at time [now], and the time it arrives. *)
Definition Network : Type := string -> Z -> Response * Z.

(** What one promise of a batch resolves to: [{ address, data }] or
    [{ address, error }]. *)
Inductive BatchItem : Type :=
| ItemData (address : string) (d : Payload)
| ItemError (address : string) (message : string).

Definition item_address (it : BatchItem) : string :=
  match it with
  | ItemData a _ => a
  | ItemError a _ => a
  end.

(** [{ results, errors }]; an entry of [results] is [{ address, data }],
    where [data] is [undefined] when the item carried an [error] that is the
    empty string. *)
Record BatchResult : Type := mkBatchResult {
  results : list (string * option Payload);
  errors : list (string * string)
}.

(** [if (result.error) errors.push(...) else results.push(...)]: a string is
    truthy when it is not empty. *)
Definition classify (acc : BatchResult) (result : BatchItem) : BatchResult :=
  match result with
  | ItemData a d => mkBatchResult (results acc ++ [(a, Some d)]) (errors acc)
  | ItemError a message =>
      if (message =? "")%string
      then mkBatchResult (results acc ++ [(a, None)]) (errors acc)
      else mkBatchResult (results acc) (errors acc ++ [(a, message)])
  end.

(** [batch.map(async (address) => ...)]: each callback runs up to its
    [await] before the next one starts. *)
Fixpoint startAll (cfg : Config) (batch : list string) (now : Z) (st : Server)
  : list (string * Started) * Server :=
  match batch with
  | [] => ([], st)
  | address :: rest =>
      let '(s, st1) :=
        handleCachedRequest_start cfg geocoding (normalizedAddress address) now st in
      let '(ss, st2) := startAll cfg rest now st1 in
      ((address, s) :: ss, st2)
  end.

Record Pending : Type := mkPending {
  p_index : nat;
  p_address : string;
  p_response : Response;
  p_arrival : Z
}.

Definition pendingOf (net : Network) (now : Z)
    (indexed : list (nat * (string * Started))) : list Pending :=
  flat_map (fun '(i, (a, s)) =>
              match s with
              | Requested => let '(r, t) := net a now in [mkPending i a r t]
              | _ => []
              end) indexed.

(** The continuations of the calls in flight run one by one, in the order
    in which the answers arrive. *)
Fixpoint finishAll (cfg : Config) (arrivals : list Pending) (st : Server)
  : list (nat * Result) * Server :=
  match arrivals with
  | [] => ([], st)
  | p :: rest =>
      let '(r, st1) :=
        handleCachedRequest_finish cfg geocoding (normalizedAddress (p_address p))
                                   (p_response p) (p_arrival p) st in
      let '(rs, st2) := finishAll cfg rest st1 in
      ((p_index p, r) :: rs, st2)
  end.

(** The [try]/[catch] of the callback: what the promise at position [i]
    resolves to. *)
Definition settle (finished : list (nat * Result)) (i : nat) (address : string)
    (s : Started) : BatchItem :=
  match s with
  | CacheHit d => ItemData address d
  | Refused message => ItemError address message
  | Requested =>
      match find (fun x => Nat.eqb (fst x) i) finished with
      | Some (_, Resolved d) => ItemData address d
      | Some (_, Rejected message) => ItemError address message
      | None => ItemError address EmptyString
      end
  end.

(** One group: [await Promise.all(promises)].  Returns [batchResults] in the
    order of [batch], the time at which the last promise settled, and the
    state. *)
Definition runBatch (cfg : Config) (net : Network) (batch : list string)
    (now : Z) (st : Server) : list BatchItem * Z * Server :=
  let '(started, st1) := startAll cfg batch now st in
  let indexed := combine (seq 0 (length started)) started in
  let arrivals := sort_by p_arrival (pendingOf net now indexed) in
  let '(finished, st2) := finishAll cfg arrivals st1 in
  (map (fun '(i, (a, s)) => settle finished i a s) indexed,
   fold_left Z.max (map p_arrival arrivals) now,
   st2).

(** The [for (let i = 0; i < addresses.length; i += batchSize)] loop, on the
    addresses from index [i] on; [fuel] bounds the number of groups. *)
Fixpoint batchGeocode_loop (cfg : Config) (net : Network) (fuel : nat)
    (addresses : list string) (now : Z) (acc : BatchResult) (st : Server)
  : BatchResult * Server :=
  match fuel with
  | O => (acc, st)
  | S fuel' =>
      match addresses with
      | [] => (acc, st)
      | _ :: _ =>
          let batch := firstn 5 addresses in
          let rest := skipn 5 addresses in
          let '(batchResults, settled, st1) := runBatch cfg net batch now st in
          let acc1 := fold_left classify batchResults acc in
          let next := match rest with [] => settled | _ => settled + 200 end in
          batchGeocode_loop cfg net fuel' rest next acc1 st1
      end
  end.

(** [batchGeocode(addresses)]: a group takes at least one address, so
    [length addresses] groups are enough. *)
Definition batchGeocode (cfg : Config) (net : Network) (addresses : list string)
    (now : Z) (st : Server) : BatchResult * Server :=
  batchGeocode_loop cfg net (length addresses) addresses now
                    (mkBatchResult [] []) st.

(** [POST /api/geocode/batch]; [addresses] is [None] when the body has no
    array under that name. *)
Definition api_geocode_batch (cfg : Config) (net : Network)
    (addresses : option (list string)) (now : Z) (st : Server)
  : HttpReply BatchResult * Server :=
  let st0 := checkSessionReset now st in
  match addresses with
  | None => (BadRequest "Array of addresses is required", st0)
  | Some [] => (BadRequest "Array of addresses is required", st0)
  | Some l =>
      let '(r, st1) := batchGeocode cfg net l now st0 in
      (Json r, st1)
  end.

(** ** Overlapping requests *)

(** The server handles a request while earlier ones wait for the provider.
    An event is the arrival of a request that reaches [handleCachedRequest],
    the settlement of the [n]-th call in flight, or [POST /api/stats/reset]. *)
Inductive Event : Type :=
| Incoming (type : ApiType) (cacheKey : string) (now : Z)
| Settles (n : nat) (response : Response) (now : Z)
| AdminReset (now : Z).

Record System : Type := mkSystem {
  server : Server;
  in_flight : list (ApiType * string)
}.

Fixpoint remove_nth {A : Type} (n : nat) (l : list A) : list A :=
  match l, n with
  | [], _ => []
  | _ :: r, O => r
  | x :: r, S n' => x :: remove_nth n' r
  end.

Definition step (cfg : Config) (sys : System) (ev : Event) : System :=
  match ev with
  | Incoming type cacheKey now =>
      let st0 := checkSessionReset now (server sys) in
      match handleCachedRequest_start cfg type cacheKey now st0 with
      | (Requested, st1) => mkSystem st1 (in_flight sys ++ [(type, cacheKey)])
      | (_, st1) => mkSystem st1 (in_flight sys)
      end
  | Settles n response now =>
      match nth_error (in_flight sys) n with
      | Some (type, cacheKey) =>
          let '(_, st1) :=
            handleCachedRequest_finish cfg type cacheKey response now (server sys) in
          mkSystem st1 (remove_nth n (in_flight sys))
      | None => sys
      end
  | AdminReset now =>
      let st := server sys in
      mkSystem (mkServer empty_cache (resetStats now (requestStats st))
                         (rateLimiter st))
               (in_flight sys)
  end.

Definition run (cfg : Config) (events : list Event) (sys : System) : System :=
  fold_left (step cfg) events sys.

Definition event_time (ev : Event) : Z :=
  match ev with
  | Incoming _ _ now => now
  | Settles _ _ now => now
  | AdminReset now => now
  end.

(** The clock does not run backwards along a trace. *)
Fixpoint chronological (from : Z) (events : list Event) : bool :=
  match events with
  | [] => true
  | ev :: rest => (from <=? event_time ev) && chronological (event_time ev) rest
  end.

Definition boot (now : Z) : System := mkSystem (initial_server now) [].

(** ** Midpoint of [MapView] *)

Record LatLng : Type := mkLatLng {
  lat : float;
  lng : float
}.

Definition default_center : LatLng := mkLatLng 38.5816%float (-121.4944)%float.

(** The [useMemo] body computing [midpoint] from [coords]. *)
Definition midpoint (coords : list LatLng) : LatLng :=
  match coords with
  | c0 :: c1 :: _ =>
      mkLatLng ((lat c0 + lat c1) / 2)%float ((lng c0 + lng c1) / 2)%float
  | _ => default_center
  end.


(** ** Notions used by the statements *)

(** [l] is split into [a] and [b]: every element of [l] goes to exactly one
    of the two, and both keep the order of [l]. *)
Inductive Partitioned {A : Type} : list A -> list A -> list A -> Prop :=
| Partitioned_nil : Partitioned [] [] []
| Partitioned_left x l a b : Partitioned l a b -> Partitioned (x :: l) (x :: a) b
| Partitioned_right x l a b : Partitioned l a b -> Partitioned (x :: l) a (x :: b).

(** Successive stores of [(key, payload, time)] into one bucket. *)
Definition storeAll (cfg : Config) (type : ApiType)
    (items : list (string * Payload * Z)) (c : Cache) : Cache :=
  fold_left (fun c '(k, d, t) => cacheStore cfg type k d t c) items c.

Definition entryOf (it : string * Payload * Z) : string * CacheEntry :=
  let '(k, d, t) := it in (k, mkEntry d t t).

(** A configuration whose limit is [n] entries for every service. *)
Definition with_limit (n : nat) : Config :=
  mkConfig (CACHE_EXPIRY server_config) (fun _ => n).

Definition ok_payload (b : string) : Payload := mkPayload "OK" b.

(** A cache key per number: [n] times the letter [k]. *)
Fixpoint key_of (n : nat) : string :=
  match n with
  | O => EmptyString
  | S n' => String "k"%char (key_of n')
  end.

(** Requests number [first] to [first + n - 1], each for a new address,
    100 ms apart and each answered 50 ms after it was made. *)
Fixpoint answered_requests (first n : nat) : list Event :=
  match n with
  | O => []
  | S n' =>
      Incoming geocoding (key_of first) (100 * Z.of_nat first)
      :: Settles 0 (Answered (ok_payload (key_of first))) (100 * Z.of_nat first + 50)
      :: answered_requests (S first) n'
  end.

(** 49 answered requests, then two requests whose provider calls overlap. *)
Definition overlapping_trace : list Event :=
  answered_requests 1 49
  ++ [ Incoming geocoding (key_of 50) 5000;
       Incoming geocoding (key_of 51) 5100;
       Settles 0 (Answered (ok_payload (key_of 50))) 5150;
       Settles 0 (Answered (ok_payload (key_of 51))) 5160 ].

(** A provider that refuses the empty address and answers every other one
    after 50 ms. *)
Definition sample_network : Network :=
  fun address now =>
    if (address =? "")%string
    then (Answered (mkPayload "INVALID_REQUEST" ""), now + 30)
    else (Answered (ok_payload address), now + 50).

Definition sample_addresses : list string :=
  ["1 main st"; "2 oak ave"; "3 elm rd"; ""; "5 pine ln"; "6 fir ct"; "7 ash way"].

(** The number of entries purged in the course of [n] stores of new keys
    with non-decreasing timestamps into an empty bucket of limit [lim]. *)
Fixpoint purged (lim n : nat) : nat :=
  match n with
  | O => O
  | S n' =>
      let d := purged lim n' in
      let size := (S n' - d)%nat in
      if (lim <? size)%nat then (d + size / 5)%nat else d
  end.

(** Thirteen stores, one per millisecond, of new keys. *)
Definition thirteen_items : list (string * Payload * Z) :=
  map (fun n => (key_of n, ok_payload (key_of n), Z.of_nat n)) (seq 1 13).

(** What holds of every bucket of the server at clock value [now]: keys are
    unique, the size is within the limit, and no entry is dated later than
    the clock. *)
Definition bucket_ok (cfg : Config) (now : Z) (type : ApiType) (c : Cache) : Prop :=
  NoDup (map_keys (bucket type c))
  /\ (length (bucket type c) <= CACHE_LIMITS cfg type)%nat
  /\ Forall (fun en => storedAt en <= now) (bucket type c).

Definition cache_ok (cfg : Config) (now : Z) (c : Cache) : Prop :=
  forall type, bucket_ok cfg now type c.

(** The clock value after a trace that starts at [from]. *)
Definition last_time (from : Z) (events : list Event) : Z :=
  fold_left (fun _ ev => event_time ev) events from.

(** A natural number as a double, and the test that [k] is the integer part
    of the double [x]. *)
Fixpoint double_of_nat (n : nat) : float :=
  match n with
  | O => 0%float
  | S n' => (double_of_nat n' + 1)%float
  end.

Definition floor_is (x : float) (k : nat) : bool :=
  PrimFloat.leb (double_of_nat k) x
  && PrimFloat.ltb x (double_of_nat k + 1)%float.

(** One inbound request that nothing interleaves with: the middleware, then
    [handleCachedRequest]. *)
Record Call : Type := mkCall {
  call_type : ApiType;
  call_key : string;
  call_now : Z;
  call_response : Response;
  call_arrival : Z
}.

Definition serve (cfg : Config) (st : Server) (c : Call) : Server :=
  snd (handleCachedRequest cfg (call_type c) (call_key c) (call_now c)
         (call_response c) (call_arrival c)
         (checkSessionReset (call_now c) st)).

(** A fetch as a route runs it: the middleware, then [handleCachedRequest];
    the boolean tells whether the provider was called. *)
Definition fetch (cfg : Config) (type : ApiType) (cacheKey : string) (now : Z)
    (response : Response) (arrival : Z) (st : Server) : Result * bool * Server :=
  handleCachedRequest cfg type cacheKey now response arrival
                      (checkSessionReset now st).

Definition serveAll (cfg : Config) (calls : list Call) (st : Server) : Server :=
  fold_left (serve cfg) calls st.

(** ** Further operations of [server.js] *)

(** [POST /api/stats/reset], after the middleware: the reply carries the
    statistics as reset. *)
Definition api_stats_reset (now : Z) (st : Server) : RequestStats * Server :=
  let st0 := checkSessionReset now st in
  let stats := resetStats now (requestStats st0) in
  (stats, mkServer empty_cache stats (rateLimiter st0)).

(** The body sent by [GET /api/stats]. *)
Record StatsReply : Type := mkStatsReply {
  reply_requestStats : RequestStats;
  reply_geocoding : nat;
  reply_places : nat;
  reply_details : nat
}.

(** [GET /api/stats]: the middleware calls [checkSessionReset], and so does
    the handler. *)
Definition api_stats (now : Z) (st : Server) : StatsReply * Server :=
  let st0 := checkSessionReset now st in
  let st1 := checkSessionReset now st0 in
  (mkStatsReply (requestStats st1)
                (length (cache_geocoding (cache st1)))
                (length (cache_places (cache st1)))
                (length (cache_details (cache st1))),
   st1).

(** Successive checks of the rate limiter for one service, at the given
    clock values. *)
Fixpoint pollAll (type : ApiType) (times : list Z) (this : RateLimiter)
  : list bool * RateLimiter :=
  match times with
  | [] => ([], this)
  | now :: rest =>
      let '(ok, this1) := canMakeRequest type now this in
      let '(oks, this2) := pollAll type rest this1 in
      (ok :: oks, this2)
  end.

(** Every clock value follows the one before it by less than [d], the
    first one following [last]. *)
Fixpoint gaps_below (d last : Z) (times : list Z) : Prop :=
  match times with
  | [] => True
  | now :: rest => now - last < d /\ gaps_below d now rest
  end.

(** The counters of [requestStats] add up. *)
Definition stats_ok (s : RequestStats) : Prop :=
  total s = count_geocoding s + count_places s + count_details s
  /\ 0 <= count_geocoding s /\ 0 <= count_places s /\ 0 <= count_details s.

(** What a state of the server keeps whatever happens: the counters add
    up, and the two settings are the ones of the source. *)
Definition settings_ok (st : Server) : Prop :=
  stats_ok (requestStats st)
  /\ limit (requestStats st) = 50
  /\ minInterval (rateLimiter st) = 100.

(** [String.prototype.substring(start, end)]: both indexes are clamped to
    the length and swapped when out of order; [end] left out is the length. *)
Definition js_substring (s : string) (start : Z) (finish : option Z) : string :=
  let len := Z.of_nat (String.length s) in
  let clamp x := Z.min (Z.max x 0) len in
  let a := clamp start in
  let b := match finish with Some e => clamp e | None => len end in
  String.substring (Z.to_nat (Z.min a b)) (Z.to_nat (Z.max a b - Z.min a b)) s.

(** The preview of the key that [/api/verify-key] sends and [app.listen]
    logs. *)
Definition keyPreview (apiKey : string) : string :=
  (js_substring apiKey 0 (Some 4) ++ "..."
   ++ js_substring apiKey (Z.of_nat (String.length apiKey) - 4) None)%string.

(** [GET /api/verify-key]; [apiKey] is [process.env.GOOGLE_MAPS_API_KEY]. *)
Definition api_verify_key (apiKey : option string) : HttpReply string :=
  match apiKey with
  | None => ServerError "API key not found in environment variables"
  | Some EmptyString => ServerError "API key not found in environment variables"
  | Some k => Json (keyPreview k)
  end.

(** ** The address form ([AddressForm.jsx]) *)

(** What [data.results[0]?.geometry.location] evaluates to: a location, a
    falsy value (no first result, or no location in it), or a [TypeError]
    (a first result without [geometry]). *)
Inductive Located : Type :=
| Found (l : LatLng)
| NoLocation
| Unreadable (message : string).

(** What [fetch] and [response.json()] give to [fetchCoordinates]. *)
Inductive HttpResponse : Type :=
| NoResponse (message : string)
| NotOk (code statusText : string) (errorField : option (option string))
| OkNotJson (message : string)
| OkJson (dataStatus : string) (location : Located).

Record Coordinates : Type := mkCoordinates {
  c_lat : float;
  c_lng : float;
  originalAddress : string
}.

Definition dquote : string := String (ascii_of_nat 34) EmptyString.

(** [fetchCoordinates(address)], given the server's response to its request;
    the boolean tells whether the request was sent. *)
Definition fetchCoordinates (address : string) (response : HttpResponse)
  : (Coordinates + string) * bool :=
  if (trim address =? "")%string then (inr "Address cannot be empty", false)
  else
    (match response with
     | NoResponse message => inr message
     | NotOk code statusText None =>
         inr ("Server error: " ++ code ++ " " ++ statusText)%string
     | NotOk _ _ (Some None) => inr "Error fetching address coordinates"
     | NotOk _ _ (Some (Some e)) =>
         if (e =? "")%string then inr "Error fetching address coordinates"
         else inr e
     | OkNotJson message => inr message
     | OkJson dataStatus location =>
         if (dataStatus =? "ZERO_RESULTS")%string then
           inr ("Could not find the address: " ++ dquote ++ address ++ dquote)%string
         else if negb (dataStatus =? "OK")%string then
           inr ("Geocoding error: " ++ dataStatus)%string
         else
           match location with
           | Found l => inl (mkCoordinates (lat l) (lng l) address)
           | NoLocation => inr "Could not parse location data from response"
           | Unreadable message => inr message
           end
     end, true).

(** How [getCoordinatesWithRetry] ends: its result, the number of calls of
    [fetchCoordinates], the number of requests sent and the time spent in
    [setTimeout]. *)
Record Retried : Type := mkRetried {
  outcome : Coordinates + string;
  attempts : nat;
  requests : nat;
  waited : Z
}.

(** [getCoordinatesWithRetry(address, retries, delay)] of [handleSubmit];
    [responses n] is the server's response to the request of the call number
    [n] of [fetchCoordinates], the first call being number [attempt]. *)
Fixpoint getCoordinatesWithRetry (responses : nat -> HttpResponse)
    (attempt : nat) (address : string) (retries : nat) (delay : Z) : Retried :=
  let '(r, sent) := fetchCoordinates address (responses attempt) in
  let n := if sent then 1%nat else 0%nat in
  match r with
  | inl c => mkRetried (inl c) 1 n 0
  | inr e =>
      match retries with
      | O => mkRetried (inr e) 1 n 0
      | S retries' =>
          let rest := getCoordinatesWithRetry responses (S attempt) address
                                              retries' (delay * 2) in
          mkRetried (outcome rest) (S (attempts rest)) (n + requests rest)
                    (delay + waited rest)
      end
  end.

(** ** Star ratings ([RestaurantInfoWindow.jsx], [App.jsx]) *)

Inductive Star : Type :=
| FullStar
| HalfStar
| EmptyStar.

(** [ratingStars] of the info window.  A rating is a finite double, which is
    a rational number, and [Math.floor], the subtraction of the floor and
    the comparison with 0.5 are exact on doubles. *)
Definition ratingStars (rating : Q) : list Star :=
  let fullStars := Qfloor rating in
  let hasHalfStar := Qle_bool (1 # 2) (rating - inject_Z fullStars) in
  let emptyStars := 5 - fullStars - (if hasHalfStar then 1 else 0) in
  (repeat FullStar (Z.to_nat fullStars)
   ++ (if hasHalfStar then [HalfStar] else [])
   ++ repeat EmptyStar (Z.to_nat emptyStars))%list.

(** The full and the half stars are drawn in yellow, the empty ones in grey. *)
Definition yellow (s : Star) : bool :=
  match s with
  | EmptyStar => false
  | _ => true
  end.

(** The stars of the list in [App.jsx], [restaurant.rating && (...)]: none
    when the rating is 0, which is falsy; otherwise five, star [i] being
    yellow when [i < Math.round(rating)]; [Math.round] is the floor of the
    rating plus one half. *)
Definition listStars (rating : Q) : list bool :=
  if Qeq_bool rating 0 then []
  else map (fun i => Z.of_nat i <? Qfloor (rating + (1 # 2))) (seq 0 5).

(** ** Place details *)

(** The loop of [POST /api/places/details/batch]: that of [batchGeocode]
    with the service and the cache key of the route; [keyOf] gives the cache
    key of an item. *)
Fixpoint startAllFor (cfg : Config) (type : ApiType) (keyOf : string -> string)
    (batch : list string) (now : Z) (st : Server)
  : list (string * Started) * Server :=
  match batch with
  | [] => ([], st)
  | item :: rest =>
      let '(s, st1) := handleCachedRequest_start cfg type (keyOf item) now st in
      let '(ss, st2) := startAllFor cfg type keyOf rest now st1 in
      ((item, s) :: ss, st2)
  end.

Fixpoint finishAllFor (cfg : Config) (type : ApiType) (keyOf : string -> string)
    (arrivals : list Pending) (st : Server) : list (nat * Result) * Server :=
  match arrivals with
  | [] => ([], st)
  | p :: rest =>
      let '(r, st1) :=
        handleCachedRequest_finish cfg type (keyOf (p_address p))
                                   (p_response p) (p_arrival p) st in
      let '(rs, st2) := finishAllFor cfg type keyOf rest st1 in
      ((p_index p, r) :: rs, st2)
  end.

Definition runBatchFor (cfg : Config) (type : ApiType) (keyOf : string -> string)
    (net : Network) (batch : list string) (now : Z) (st : Server)
  : list BatchItem * Z * Server :=
  let '(started, st1) := startAllFor cfg type keyOf batch now st in
  let indexed := combine (seq 0 (length started)) started in
  let arrivals := sort_by p_arrival (pendingOf net now indexed) in
  let '(finished, st2) := finishAllFor cfg type keyOf arrivals st1 in
  (map (fun '(i, (a, s)) => settle finished i a s) indexed,
   fold_left Z.max (map p_arrival arrivals) now,
   st2).

Fixpoint batchLoopFor (cfg : Config) (type : ApiType) (keyOf : string -> string)
    (net : Network) (fuel : nat) (items : list string) (now : Z)
    (acc : BatchResult) (st : Server) : BatchResult * Server :=
  match fuel with
  | O => (acc, st)
  | S fuel' =>
      match items with
      | [] => (acc, st)
      | _ :: _ =>
          let batch := firstn 5 items in
          let rest := skipn 5 items in
          let '(batchResults, settled, st1) :=
            runBatchFor cfg type keyOf net batch now st in
          let acc1 := fold_left classify batchResults acc in
          let next := match rest with [] => settled | _ => settled + 200 end in
          batchLoopFor cfg type keyOf net fuel' rest next acc1 st1
      end
  end.






(** The bucket of [type] holds an entry under [key] that is still served at
    clock value [deadline]. *)
Definition fresh_until (cfg : Config) (type : ApiType) (deadline : Z)
    (c : Cache) (key : string) : Prop :=
  exists e, map_get key (bucket type c) = Some e
            /\ deadline - timestamp e < CACHE_EXPIRY cfg type.

(** What a bucket serves under a key: the payload and the time it was
    stored. *)
Definition served (type : ApiType) (c : Cache) (key : string)
  : option (Payload * Z) :=
  option_map (fun e => (data e, timestamp e)) (map_get key (bucket type c)).

(** The payload the cache holds for a key, if any. *)
Definition cached (type : ApiType) (c : Cache) (key : string) : option Payload :=
  option_map data (map_get key (bucket type c)).

(** A server whose quota is used up and whose geocoding bucket holds two
    addresses stored at 900 ms. *)
Definition warm_server : Server :=
  mkServer
    (mkCache [("1 main st", mkEntry (ok_payload "38.58,-121.49") 900 900);
              ("2 oak ave", mkEntry (ok_payload "38.57,-121.47") 900 900)] [] [])
    (mkStats 50 50 0 0 50 0) (mkLimiter 900 0 0 100).

(** A string made of white space only. *)
Fixpoint all_whitespace (s : string) : bool :=
  match s with
  | EmptyString => true
  | String c r => is_whitespace c && all_whitespace r
  end.

(** The number of callbacks of a group that reached [await api.get]. *)
Definition requested (started : list (string * Started)) : nat :=
  length (filter (fun x => match snd x with Requested => true | _ => false end)
                 started).

(** The number of groups of five that [n] addresses make. *)
Definition groups (n : nat) : nat := ((n + 4) / 5)%nat.


(** * Properties *)

(** ** Maps and buckets *)

Lemma map_get_set_same k e m : map_get k (map_set k e m) = Some e.
Proof.
  induction m as [| [k' e'] r IH]; simpl.
  - now rewrite String.eqb_refl.
  - destruct (String.eqb_spec k k') as [-> | Hne]; simpl.
    + now rewrite String.eqb_refl.
    + destruct (String.eqb_spec k k'); [contradiction | exact IH].
Qed.

Lemma map_get_set_other k k' e m :
  k <> k' -> map_get k (map_set k' e m) = map_get k m.
Proof.
  intros Hne. induction m as [| [k0 e0] r IH]; simpl.
  - destruct (String.eqb_spec k k'); [contradiction | reflexivity].
  - destruct (String.eqb_spec k' k0) as [-> | Hne0]; simpl.
    + destruct (String.eqb_spec k k0); [contradiction | reflexivity].
    + destruct (String.eqb_spec k k0); [reflexivity | exact IH].
Qed.

Lemma map_get_delete_other k k' m :
  k <> k' -> map_get k (map_delete k' m) = map_get k m.
Proof.
  intros Hne. induction m as [| [k0 e0] r IH]; simpl; [reflexivity |].
  destruct (String.eqb_spec k' k0) as [-> | Hne0]; simpl.
  - destruct (String.eqb_spec k k0); [contradiction | reflexivity].
  - destruct (String.eqb_spec k k0); [reflexivity | exact IH].
Qed.

Lemma map_get_In k e m : map_get k m = Some e -> In (k, e) m.
Proof.
  induction m as [| [k0 e0] r IH]; simpl; [discriminate |].
  destruct (String.eqb_spec k k0) as [-> | Hne]; intros H.
  - injection H as ->. now left.
  - right. auto.
Qed.

Lemma map_get_None k m : map_get k m = None <-> ~ In k (map_keys m).
Proof.
  induction m as [| [k0 e0] r IH]; simpl.
  - tauto.
  - destruct (String.eqb_spec k k0) as [-> | Hne].
    + split; [discriminate | intros H; exfalso; apply H; now left].
    + rewrite IH. split; intros H; [intros [Heq | Hin] | ]; try tauto.
      congruence.
Qed.

Lemma map_set_fresh k e m :
  ~ In k (map_keys m) -> map_set k e m = (m ++ [(k, e)])%list.
Proof.
  induction m as [| [k0 e0] r IH]; simpl; intros Hfresh; [reflexivity |].
  destruct (String.eqb_spec k k0) as [-> | Hne]; [tauto |].
  rewrite IH by tauto. reflexivity.
Qed.

Lemma map_set_present_keys k e m :
  In k (map_keys m) -> map_keys (map_set k e m) = map_keys m.
Proof.
  induction m as [| [k0 e0] r IH]; simpl; intros Hin; [contradiction |].
  destruct (String.eqb_spec k k0) as [-> | Hne]; simpl; [reflexivity |].
  rewrite IH; [reflexivity |]. destruct Hin; [congruence | assumption].
Qed.

Lemma map_set_present_length k e m :
  In k (map_keys m) -> length (map_set k e m) = length m.
Proof.
  intros Hin. pose proof (map_set_present_keys k e m Hin) as Hkeys.
  apply (f_equal (@length string)) in Hkeys.
  unfold map_keys in Hkeys. now rewrite !length_map in Hkeys.
Qed.

Lemma map_set_length k e m : (length (map_set k e m) <= S (length m))%nat.
Proof.
  induction m as [| [k0 e0] r IH]; simpl; [lia |].
  destruct (k =? k0)%string; simpl; lia.
Qed.

Lemma map_set_Forall (P : string * CacheEntry -> Prop) k e m :
  Forall P m -> P (k, e) -> Forall P (map_set k e m).
Proof.
  intros Hm Hke. induction Hm as [| [k0 e0] r H0 Hr IH]; simpl.
  - now repeat constructor.
  - destruct (String.eqb_spec k k0) as [-> | Hne]; now constructor.
Qed.

Lemma map_set_NoDup k e m :
  NoDup (map_keys m) -> NoDup (map_keys (map_set k e m)).
Proof.
  intros Hnd. destruct (in_dec string_dec k (map_keys m)) as [Hin | Hfresh].
  - now rewrite map_set_present_keys.
  - rewrite map_set_fresh by exact Hfresh. unfold map_keys in *.
    rewrite map_app. simpl. apply NoDup_app; [exact Hnd | repeat constructor; auto |].
    intros a Ha [<- | []]. contradiction.
Qed.

Lemma map_delete_length k m :
  In k (map_keys m) -> S (length (map_delete k m)) = length m.
Proof.
  induction m as [| [k0 e0] r IH]; simpl; intros Hin; [contradiction |].
  destruct (String.eqb_spec k k0) as [-> | Hne]; [reflexivity |].
  simpl. rewrite IH; [reflexivity |]. destruct Hin; [congruence | assumption].
Qed.

Lemma map_delete_In en k m :
  NoDup (map_keys m) ->
  In en (map_delete k m) <-> In en m /\ fst en <> k.
Proof.
  induction m as [| [k0 e0] r IH]; simpl; intros Hnd; [tauto |].
  inversion Hnd as [| ? ? Hk0 Hr]; subst.
  destruct (String.eqb_spec k k0) as [-> | Hne].
  - split.
    + intros Hin. split; [now right |]. intros Heq. apply Hk0.
      rewrite <- Heq. now apply in_map.
    + intros [[<- | Hin] Hkey]; [simpl in Hkey; congruence | exact Hin].
  - simpl. rewrite IH by exact Hr. split.
    + intros [<- | [Hin Hkey]]; [simpl; split; [now left | congruence] | tauto].
    + intros [[<- | Hin] Hkey]; [now left | tauto].
Qed.

Lemma map_delete_keys_incl k m : incl (map_keys (map_delete k m)) (map_keys m).
Proof.
  induction m as [| [k0 e0] r IH]; simpl; [apply incl_refl |].
  destruct (String.eqb_spec k k0); [apply incl_tl, incl_refl |].
  simpl. intros x [<- | Hx]; [now left | right; now apply IH].
Qed.

Lemma map_delete_NoDup k m :
  NoDup (map_keys m) -> NoDup (map_keys (map_delete k m)).
Proof.
  induction m as [| [k0 e0] r IH]; simpl; intros Hnd; [constructor |].
  inversion Hnd as [| ? ? Hk0 Hr]; subst.
  destruct (String.eqb_spec k k0); [exact Hr |].
  simpl. constructor; [| now apply IH].
  intros Hin. apply Hk0. now apply (map_delete_keys_incl k r).
Qed.

Lemma map_delete_Forall (P : string * CacheEntry -> Prop) k m :
  Forall P m -> Forall P (map_delete k m).
Proof.
  induction 1 as [| [k0 e0] r H0 Hr IH]; simpl; [constructor |].
  destruct (k =? k0)%string; [exact Hr | now constructor].
Qed.

Lemma bucket_set_bucket type m c : bucket type (set_bucket type m c) = m.
Proof. now destruct type. Qed.

Lemma bucket_set_bucket_other type type' m c :
  type <> type' -> bucket type (set_bucket type' m c) = bucket type c.
Proof. destruct type, type'; simpl; congruence. Qed.

Lemma ApiType_eq_dec (a b : ApiType) : {a = b} + {a <> b}.
Proof. decide equality. Qed.

(** ** Stable sort *)

Section StableSortFacts.
Context {A : Type}.
Variable key : A -> Z.

Lemma insert_by_perm x l : Permutation (insert_by key x l) (x :: l).
Proof.
  induction l as [| y r IH]; simpl; [reflexivity |].
  destruct (key x <=? key y); [reflexivity |].
  rewrite IH. apply perm_swap.
Qed.

Lemma sort_by_perm l : Permutation (sort_by key l) l.
Proof.
  induction l as [| x r IH]; simpl; [reflexivity |].
  rewrite insert_by_perm. now constructor.
Qed.

Lemma sort_by_length l : length (sort_by key l) = length l.
Proof. apply Permutation_length, sort_by_perm. Qed.

Lemma sort_by_In x l : In x (sort_by key l) <-> In x l.
Proof.
  split; apply Permutation_in; [| symmetry]; apply sort_by_perm.
Qed.

Lemma insert_by_sorted x l :
  StronglySorted (key_le key) l -> StronglySorted (key_le key) (insert_by key x l).
Proof.
  induction 1 as [| y r Hr IH Hy]; simpl.
  - repeat constructor.
  - destruct (Z.leb_spec (key x) (key y)) as [Hle | Hgt].
    + constructor; [now constructor |].
      constructor; [exact Hle |].
      eapply Forall_impl; [| exact Hy].
      intros z Hz. unfold key_le in *. lia.
    + constructor; [exact IH |].
      eapply Permutation_Forall; [symmetry; apply insert_by_perm |].
      constructor; [unfold key_le; lia | exact Hy].
Qed.

Lemma sort_by_sorted l : StronglySorted (key_le key) (sort_by key l).
Proof.
  induction l as [| x r IH]; simpl; [constructor |].
  now apply insert_by_sorted.
Qed.

(** A list already in order is left as it is: equal keys are not swapped. *)
Lemma sort_by_id l : StronglySorted (key_le key) l -> sort_by key l = l.
Proof.
  induction 1 as [| x r Hr IH Hx]; simpl; [reflexivity |].
  rewrite IH. destruct r as [| y r']; simpl; [reflexivity |].
  inversion Hx as [| ? ? Hxy _]; subst. unfold key_le in Hxy.
  destruct (Z.leb_spec (key x) (key y)); [reflexivity | lia].
Qed.

Lemma sorted_snoc l x :
  StronglySorted (key_le key) l -> Forall (fun y => key y <= key x) l ->
  StronglySorted (key_le key) (l ++ [x]).
Proof.
  induction 1 as [| y r Hr IH Hy]; intros Hall; simpl.
  - repeat constructor.
  - inversion Hall as [| ? ? Hyx Hrx]; subst.
    constructor; [now apply IH |].
    apply Forall_app. split; [exact Hy | now repeat constructor].
Qed.

Lemma sorted_skipn n l :
  StronglySorted (key_le key) l -> StronglySorted (key_le key) (skipn n l).
Proof.
  revert l. induction n as [| n IH]; intros l Hl; [exact Hl |].
  destruct l as [| x r]; [constructor |].
  simpl. apply IH. now inversion Hl.
Qed.

Lemma In_skipn n (l : list A) y : In y (skipn n l) -> In y l.
Proof.
intros Hy. rewrite <- (firstn_skipn n l). apply in_or_app. now right.
Qed.

(** The elements in front of a position of a sorted list are not newer
    than the ones from that position on. *)
Lemma sorted_firstn_skipn n l x y :
  StronglySorted (key_le key) l ->
  In x (firstn n l) -> In y (skipn n l) -> key x <= key y.
Proof.
  intros Hl. revert n. induction Hl as [| z r Hr IH Hz]; intros n Hx Hy.
  - rewrite firstn_nil in Hx. contradiction.
  - destruct n as [| n]; simpl in *; [contradiction |].
    destruct Hx as [-> | Hx].
    + apply In_skipn in Hy.
      rewrite Forall_forall in Hz. now apply Hz.
    + now apply (IH n).
Qed.
End StableSortFacts.

Lemma insert_by_snoc {A : Type} (key : A -> Z) y l x :
  key y <= key x ->
  insert_by key y (l ++ [x]) = (insert_by key y l ++ [x])%list.
Proof.
  intros Hle. induction l as [| z r IH]; simpl.
  - destruct (Z.leb_spec (key y) (key x)); [reflexivity | lia].
  - destruct (key y <=? key z); [reflexivity |]. now rewrite IH.
Qed.

(** The newest entry, appended last, is last in the sorted order. *)
Lemma sort_by_snoc {A : Type} (key : A -> Z) l x :
  Forall (fun y => key y <= key x) l ->
  sort_by key (l ++ [x]) = (sort_by key l ++ [x])%list.
Proof.
  induction 1 as [| y r Hy Hr IH]; simpl; [reflexivity |].
  rewrite IH. now apply insert_by_snoc.
Qed.

Lemma sorted_snoc_inv {A : Type} (R : A -> A -> Prop) l x :
  StronglySorted R (l ++ [x]) ->
  StronglySorted R l /\ Forall (fun y => R y x) l.
Proof.
  induction l as [| y r IH]; simpl; intros Hs.
  - split; constructor.
  - inversion Hs as [| ? ? Hr Hy]; subst.
    destruct (IH Hr) as [Hr' Hall].
    apply Forall_app in Hy as [Hy1 Hy2].
    split; constructor; auto. now inversion Hy2.
Qed.

Lemma firstn_incl {A : Type} n (l : list A) : incl (firstn n l) l.
Proof.
  intros x Hx. rewrite <- (firstn_skipn n l). apply in_or_app. now left.
Qed.

Lemma skipn_snoc {A : Type} n (l : list A) x :
  (n <= length l)%nat -> skipn n (l ++ [x]) = (skipn n l ++ [x])%list.
Proof.
  intros Hn. rewrite skipn_app.
  replace (n - length l)%nat with 0%nat by lia. reflexivity.
Qed.

Lemma fifth_le n : (n / 5 <= n)%nat.
Proof. apply Nat.Div0.div_le_upper_bound. lia. Qed.

(** ** Rate limiter *)

(** C1, as stated, fails: a check made 50 ms after the last one is rejected,
    and the stored last-call time of the service is no longer the one it
    was before the check. *)
Lemma C1_rejected_check_mutates :
  let this := mkLimiter 1000 0 0 100 in
  1050 - lastRequestOf geocoding this < minInterval this
  /\ fst (canMakeRequest geocoding 1050 this) = false
  /\ lastRequestOf geocoding this = 1000
  /\ lastRequestOf geocoding (snd (canMakeRequest geocoding 1050 this)) = 1050
  /\ snd (canMakeRequest geocoding 1050 this) <> this.
Proof.
  cbv zeta. simpl. repeat split; try lia. discriminate.
Qed.

(** C1 (amended).  A check made less than [minInterval] after the last check
    of the same service returns [false] and records [now] as that service's
    last-call time; the timestamps of the other services and [minInterval]
    are unchanged. *)
Theorem C1_rejected_check_records_now (type : ApiType) (now : Z) (this : RateLimiter) :
  now - lastRequestOf type this < minInterval this ->
  fst (canMakeRequest type now this) = false
  /\ lastRequestOf type (snd (canMakeRequest type now this)) = now
  /\ minInterval (snd (canMakeRequest type now this)) = minInterval this
  /\ forall other, other <> type ->
       lastRequestOf other (snd (canMakeRequest type now this))
       = lastRequestOf other this.
Proof.
  intros Hsoon. unfold canMakeRequest.
  destruct type; simpl in *;
    match goal with
    | |- context [?a <? ?b] => destruct (Z.ltb_spec a b) as [_ | Hge]; [ | lia ]
    end;
    simpl; repeat split; intros other Hne; destruct other; simpl;
    congruence.
Qed.

Lemma C1_rejected_check_records_now_witness :
  1050 - lastRequestOf geocoding (mkLimiter 1000 0 0 100)
    < minInterval (mkLimiter 1000 0 0 100)
  /\ lastRequestOf geocoding
       (snd (canMakeRequest geocoding 1050 (mkLimiter 1000 0 0 100))) = 1050.
Proof.
  split.
  - simpl. lia.
  - apply (C1_rejected_check_records_now geocoding 1050 (mkLimiter 1000 0 0 100)).
    simpl. lia.
Defined.

(** ** Cache expiry *)

(** C6.  The cache check returns the stored item exactly when it exists and
    [now - timestamp] is below the service's expiry: an item stored at [t0]
    is a hit at [t0 + expiry - 1] and a miss at [t0 + expiry + 1].  A hit
    sets the item's [lastAccessed] to [now] and keeps its [data] and its
    [timestamp], so being read does not make an item live longer. *)
Theorem C6_cache_expiry (cfg : Config) (type : ApiType) (cacheKey : string)
    (c : Cache) :
  (forall now,
      cacheLookup cfg type cacheKey now c = None
      <-> (map_get cacheKey (bucket type c) = None
           \/ exists e, map_get cacheKey (bucket type c) = Some e
                        /\ CACHE_EXPIRY cfg type <= now - timestamp e))
  /\ (forall now e,
        map_get cacheKey (bucket type c) = Some e ->
        now - timestamp e < CACHE_EXPIRY cfg type ->
        exists c',
          cacheLookup cfg type cacheKey now c = Some (data e, c')
          /\ map_get cacheKey (bucket type c')
             = Some (mkEntry (data e) (timestamp e) now))
  /\ (forall e,
        map_get cacheKey (bucket type c) = Some e ->
        cacheLookup cfg type cacheKey
                    (timestamp e + CACHE_EXPIRY cfg type - 1) c <> None
        /\ cacheLookup cfg type cacheKey
                       (timestamp e + CACHE_EXPIRY cfg type + 1) c = None).
Proof.
  unfold cacheLookup. repeat split.
  - destruct (map_get cacheKey (bucket type c)) as [e |]; [| now left].
    destruct (Z.ltb_spec (now - timestamp e) (CACHE_EXPIRY cfg type));
      [discriminate |].
    intros _. right. exists e. now split.
  - intros [Hnone | (e & He & Hold)]; rewrite ?Hnone, ?He; [reflexivity |].
    destruct (Z.ltb_spec (now - timestamp e) (CACHE_EXPIRY cfg type));
      [lia | reflexivity].
  - intros now e He Hfresh. rewrite He.
    destruct (Z.ltb_spec (now - timestamp e) (CACHE_EXPIRY cfg type)); [| lia].
    eexists. split; [reflexivity |].
    rewrite bucket_set_bucket. apply map_get_set_same.
  - rewrite H.
    destruct (Z.ltb_spec (timestamp e + CACHE_EXPIRY cfg type - 1 - timestamp e)
                         (CACHE_EXPIRY cfg type)); [discriminate | lia].
  - rewrite H.
    destruct (Z.ltb_spec (timestamp e + CACHE_EXPIRY cfg type + 1 - timestamp e)
                         (CACHE_EXPIRY cfg type)); [lia | reflexivity].
Qed.

(** An entry stored at 1000 ms in the geocoding bucket (expiry 30 min):
    still served one millisecond before the expiry, gone one after. *)
Lemma C6_cache_expiry_witness :
  let e := mkEntry (ok_payload "38.58,-121.49") 1000 1000 in
  let c := mkCache [("1 main st", e)] [] [] in
  cacheLookup server_config geocoding "1 main st" (1000 + 1800000 - 1) c <> None
  /\ cacheLookup server_config geocoding "1 main st" (1000 + 1800000 + 1) c = None.
Proof.
  cbv zeta.
  exact (proj2 (proj2 (C6_cache_expiry server_config geocoding "1 main st"
                         (mkCache [("1 main st",
                                    mkEntry (ok_payload "38.58,-121.49") 1000 1000)]
                                  [] [])))
               (mkEntry (ok_payload "38.58,-121.49") 1000 1000) eq_refl).
Defined.

(** ** Purge *)

(** Deleting the keys of the first [n] entries of a map, in order, leaves
    the entries from position [n] on. *)
Lemma purge_prefix n m :
  fold_left delete_entry (firstn n m) m = skipn n m.
Proof.
  revert m. induction n as [| n IH]; intros m; [reflexivity |].
  destruct m as [| [k e] r]; [reflexivity |].
  simpl. unfold delete_entry at 2. simpl. rewrite String.eqb_refl. apply IH.
Qed.

Lemma map_get_purge k dels m :
  ~ In k (map fst dels) ->
  map_get k (fold_left delete_entry dels m) = map_get k m.
Proof.
  revert m. induction dels as [| [k0 e0] dels IH]; intros m Hout; simpl;
    [reflexivity |].
  simpl in Hout. rewrite IH by tauto. unfold delete_entry. simpl.
  apply map_get_delete_other. intros ->. tauto.
Qed.

(** Deleting the keys of [dels], pairwise distinct and all present, removes
    exactly the entries with these keys. *)
Lemma purge_entries dels :
  forall m,
    NoDup (map_keys m) -> NoDup (map fst dels) -> incl dels m ->
    (length (fold_left delete_entry dels m) + length dels)%nat = length m
    /\ NoDup (map_keys (fold_left delete_entry dels m))
    /\ forall en, In en (fold_left delete_entry dels m)
                  <-> In en m /\ ~ In (fst en) (map fst dels).
Proof.
  induction dels as [| d dels IH]; intros m Hm Hd Hincl; simpl.
  - repeat split; auto; tauto.
  - inversion Hd as [| ? ? Hfresh Hd']; subst.
    assert (Hdm : In d m) by (apply Hincl; now left).
    destruct (IH (delete_entry m d)) as (Hlen & Hnd & Hin).
    + now apply map_delete_NoDup.
    + exact Hd'.
    + intros x Hx. unfold delete_entry. apply map_delete_In; [exact Hm |].
      split; [apply Hincl; now right |].
      intros Heq. apply Hfresh. rewrite <- Heq. now apply in_map.
    + split; [| split; [exact Hnd |]].
      * pose proof (map_delete_length (fst d) m (in_map fst _ _ Hdm)) as Hone.
        change (map_delete (fst d) m) with (delete_entry m d) in Hone.
        simpl length. lia.
      * intros en. rewrite Hin. unfold delete_entry.
        rewrite map_delete_In by exact Hm. intuition congruence.
Qed.

Lemma fold_delete_Forall (P : string * CacheEntry -> Prop) dels m :
  Forall P m -> Forall P (fold_left delete_entry dels m).
Proof.
  revert m. induction dels as [| d dels IH]; intros m Hm; simpl; [exact Hm |].
  apply IH. now apply map_delete_Forall.
Qed.

Lemma fold_delete_NoDup dels m :
  NoDup (map_keys m) -> NoDup (map_keys (fold_left delete_entry dels m)).
Proof.
  revert m. induction dels as [| d dels IH]; intros m Hm; simpl; [exact Hm |].
  apply IH. now apply map_delete_NoDup.
Qed.

Lemma sorted_keys_NoDup m :
  NoDup (map_keys m) -> NoDup (map_keys (sort_by_timestamp m)).
Proof.
  apply Permutation_NoDup. unfold map_keys. apply Permutation_map.
  symmetry. apply sort_by_perm.
Qed.

(** What [manageCacheSize] does to a bucket over its limit: the first fifth
    (rounded down) of the entries in ascending order of [timestamp] goes,
    the rest stays. *)
Lemma manageCacheSize_evicts_oldest cfg type c :
  NoDup (map_keys (bucket type c)) ->
  (CACHE_LIMITS cfg type < length (bucket type c))%nat ->
  let m := bucket type c in
  let sorted := sort_by_timestamp m in
  let n := (length m / 5)%nat in
  let m' := bucket type (manageCacheSize cfg type c) in
  (length m' + n)%nat = length m
  /\ (forall en, In en m' <-> In en (skipn n sorted))
  /\ (forall en, In en (firstn n sorted) -> map_get (fst en) m' = None)
  /\ (forall old new,
        In old (firstn n sorted) -> In new m' -> storedAt old <= storedAt new).
Proof.
  intros Hnd Hover. cbv zeta.
  set (m := bucket type c) in *.
  set (sorted := sort_by_timestamp m).
  set (n := (length m / 5)%nat).
  assert (Hm' : bucket type (manageCacheSize cfg type c)
                = fold_left delete_entry (firstn n sorted) m).
  { unfold manageCacheSize. fold m.
    destruct (Nat.ltb_spec (CACHE_LIMITS cfg type) (length m)); [| lia].
    rewrite bucket_set_bucket. unfold purge, removeCount. fold sorted.
    unfold sorted at 1, sort_by_timestamp. now rewrite sort_by_length. }
  rewrite Hm'.
  assert (Hsnd : NoDup (map_keys sorted)) by now apply sorted_keys_NoDup.
  assert (Hsplit : map_keys sorted
                   = (map fst (firstn n sorted) ++ map fst (skipn n sorted))%list).
  { unfold map_keys. now rewrite <- map_app, firstn_skipn. }
  assert (Hdels : NoDup (map fst (firstn n sorted))).
  { rewrite Hsplit in Hsnd. now apply NoDup_app_remove_r in Hsnd. }
  assert (Hincl : incl (firstn n sorted) m).
  { intros x Hx. apply firstn_incl in Hx. now apply (sort_by_In storedAt). }
  destruct (purge_entries (firstn n sorted) m Hnd Hdels Hincl)
    as (Hlen & _ & Hin).
  assert (Hkept : forall en,
             In en (fold_left delete_entry (firstn n sorted) m)
             <-> In en (skipn n sorted)).
  { intros en. rewrite Hin. split.
    - intros [Hen Hout]. apply (sort_by_In storedAt) in Hen.
      change (In en sorted) in Hen.
      rewrite <- (firstn_skipn n sorted) in Hen.
      apply in_app_or in Hen as [Hen | Hen]; [| exact Hen].
      exfalso. apply Hout. now apply in_map.
    - intros Hen. split.
      + apply (sort_by_In storedAt). change (In en sorted).
        now apply In_skipn in Hen.
      + intros Hdup. rewrite Hsplit in Hsnd.
        apply NoDup_app_remove_l in Hsnd as Hs2.
        revert Hdup. apply (in_map fst) in Hen. revert Hen.
        generalize (fst en). intros k Hk2 Hk1.
        clear - Hsnd Hk1 Hk2.
        induction (map fst (firstn n sorted)) as [| a l IH]; simpl in *;
          [contradiction |].
        inversion Hsnd as [| ? ? Ha Hl]; subst.
        destruct Hk1 as [-> | Hk1]; [| now apply IH].
        apply Ha. apply in_or_app. now right. }
  split; [| split; [exact Hkept | split]].
  - rewrite length_firstn in Hlen. unfold sorted, sort_by_timestamp in Hlen.
    rewrite sort_by_length in Hlen.
    rewrite Nat.min_l in Hlen by apply fifth_le. exact Hlen.
  - intros en Hen. apply map_get_None. intros Hk.
    apply in_map_iff in Hk as (en' & Heq & Hen').
    apply Hin in Hen' as [_ Hout]. apply Hout. rewrite Heq.
    now apply in_map.
  - intros old new Hold Hnew. apply Hkept in Hnew.
    apply (sorted_firstn_skipn storedAt n sorted); auto.
    apply sort_by_sorted.
Qed.

(** A bucket whose entries are in ascending order of [timestamp] loses its
    first fifth when it is over the limit. *)
Lemma manageCacheSize_in_order cfg type c :
  StronglySorted (key_le storedAt) (bucket type c) ->
  bucket type (manageCacheSize cfg type c)
  = if (CACHE_LIMITS cfg type <? length (bucket type c))%nat
    then skipn (length (bucket type c) / 5) (bucket type c)
    else bucket type c.
Proof.
  intros Hs. unfold manageCacheSize.
  destruct (CACHE_LIMITS cfg type <? length (bucket type c))%nat; [| reflexivity].
  rewrite bucket_set_bucket. unfold purge, removeCount, sort_by_timestamp.
  rewrite sort_by_id by exact Hs. apply purge_prefix.
Qed.

Lemma manageCacheSize_other cfg type other c :
  other <> type ->
  bucket other (manageCacheSize cfg type c) = bucket other c.
Proof.
  intros Hne. unfold manageCacheSize.
  destruct (CACHE_LIMITS cfg type <? length (bucket type c))%nat;
    [now apply bucket_set_bucket_other | reflexivity].
Qed.

Lemma manageCacheSize_Forall (P : string * CacheEntry -> Prop) cfg type c :
  Forall P (bucket type c) -> Forall P (bucket type (manageCacheSize cfg type c)).
Proof.
  intros H. unfold manageCacheSize.
  destruct (CACHE_LIMITS cfg type <? length (bucket type c))%nat; [| exact H].
  rewrite bucket_set_bucket. now apply fold_delete_Forall.
Qed.

Lemma manageCacheSize_NoDup cfg type c :
  NoDup (map_keys (bucket type c)) ->
  NoDup (map_keys (bucket type (manageCacheSize cfg type c))).
Proof.
  intros H. unfold manageCacheSize.
  destruct (CACHE_LIMITS cfg type <? length (bucket type c))%nat; [| exact H].
  rewrite bucket_set_bucket. now apply fold_delete_NoDup.
Qed.

(** One entry over a limit of at least 4: the purge brings the bucket back
    within the limit. *)
Lemma manageCacheSize_length cfg type c :
  (4 <= CACHE_LIMITS cfg type)%nat ->
  NoDup (map_keys (bucket type c)) ->
  (length (bucket type c) <= S (CACHE_LIMITS cfg type))%nat ->
  (length (bucket type (manageCacheSize cfg type c)) <= CACHE_LIMITS cfg type)%nat.
Proof.
  intros Hlim Hnd Hlen.
  destruct (Nat.ltb_spec (CACHE_LIMITS cfg type) (length (bucket type c)))
    as [Hover | Hfit].
  - destruct (manageCacheSize_evicts_oldest cfg type c Hnd Hover) as (Hsum & _).
    cbv zeta in Hsum.
    assert (Hone : (1 <= length (bucket type c) / 5)%nat).
    { apply Nat.div_le_lower_bound; lia. }
    lia.
  - unfold manageCacheSize.
    destruct (Nat.ltb_spec (CACHE_LIMITS cfg type) (length (bucket type c)));
      [lia | exact Hfit].
Qed.

(** [Math.floor(n * 0.2)] in binary64 is [n / 5] for every size a bucket of
    the server can have when the purge runs (at most 1001). *)
Lemma removeCount_is_floor :
  forallb (fun n => floor_is (double_of_nat n * 0.2)%float (n / 5)) (seq 0 1002)
  = true.
Proof. vm_compute. reflexivity. Qed.

(** ** Eviction *)

Lemma purged_le lim n : (purged lim n <= n)%nat.
Proof.
  induction n as [| n IH]; cbn [purged]; [lia |]. cbv zeta.
  destruct (lim <? S n - purged lim n)%nat; [| lia].
  pose proof (fifth_le (S n - purged lim n)). lia.
Qed.

Lemma storeAll_snoc cfg type items k d t c :
  storeAll cfg type (items ++ [(k, d, t)]) c
  = cacheStore cfg type k d t (storeAll cfg type items c).
Proof. unfold storeAll. now rewrite fold_left_app. Qed.

(** Stores of new keys with non-decreasing timestamps into an empty bucket
    leave the newest entries, [purged] telling how many are gone. *)
Lemma storeAll_in_order cfg type c items :
  bucket type c = [] ->
  NoDup (map_keys (map entryOf items)) ->
  StronglySorted (key_le storedAt) (map entryOf items) ->
  bucket type (storeAll cfg type items c)
  = skipn (purged (CACHE_LIMITS cfg type) (length items)) (map entryOf items).
Proof.
  intros Hempty. induction items as [| [[k d] t] items IH] using rev_ind;
    intros Hnd Hs.
  - simpl. exact Hempty.
  - rewrite map_app in Hnd, Hs. simpl in Hnd, Hs.
    unfold map_keys in Hnd. rewrite map_app in Hnd. simpl in Hnd.
    apply sorted_snoc_inv in Hs as [Hs Hall].
    assert (Hnd' : NoDup (map_keys (map entryOf items))).
    { now apply NoDup_app_remove_r in Hnd. }
    specialize (IH Hnd' Hs).
    rewrite storeAll_snoc, length_app, Nat.add_1_r. cbn [purged length]. cbv zeta.
    set (lim := CACHE_LIMITS cfg type) in *.
    set (n := length items) in *.
    set (gone := purged lim n) in *.
    set (E := map entryOf items) in *.
    assert (HE : length E = n) by (unfold E; now rewrite length_map).
    assert (Hgone : (gone <= length E)%nat).
    { rewrite HE. apply purged_le. }
    assert (Hfresh : ~ In k (map_keys (skipn gone E))).
    { intros Hin. apply NoDup_remove_2 in Hnd. rewrite app_nil_r in Hnd.
      apply Hnd. unfold map_keys in Hin. rewrite <- skipn_map in Hin.
      now apply In_skipn in Hin. }
    unfold cacheStore. rewrite IH, map_set_fresh by exact Hfresh.
    rewrite manageCacheSize_in_order; rewrite bucket_set_bucket.
    + rewrite length_app, length_skipn. simpl length.
      replace (length E - gone + 1)%nat with (S n - gone)%nat by lia.
      rewrite map_app. simpl map. fold E.
      change (entryOf (k, d, t)) with (k, mkEntry d t t).
      rewrite <- skipn_snoc by exact Hgone.
      fold lim. destruct (lim <? S n - gone)%nat; [| reflexivity].
      rewrite skipn_skipn. f_equal. lia.
    + apply sorted_snoc; [now apply sorted_skipn |].
      rewrite Forall_forall in Hall |- *. intros y Hy.
      apply In_skipn in Hy. now apply Hall.
Qed.

(** C3, as stated, fails: with a limit of 10, thirteen stores of distinct
    keys one millisecond apart leave 9 entries, not 10.  The purge runs on
    the 11th and on the 13th store and takes 2 entries each time, so that
    the 4 oldest keys are gone, the third and fourth among them. *)
Lemma C3_thirteen_stores_leave_nine :
  let m := bucket geocoding
             (storeAll (with_limit 10) geocoding thirteen_items empty_cache) in
  CACHE_LIMITS (with_limit 10) geocoding = 10%nat
  /\ length thirteen_items = 13%nat
  /\ map (fun it => fst (fst it)) thirteen_items = map key_of (seq 1 13)
  /\ length m = 9%nat
  /\ map_keys m = map key_of (seq 5 9)
  /\ map_get (key_of 3) m = None
  /\ map_get (key_of 4) m = None.
Proof. cbv zeta. vm_compute. repeat split. Qed.

(** C3 (amended).  For a service whose limit is 10, storing 13 distinct keys
    with non-decreasing timestamps into an empty bucket leaves exactly 9
    entries: the 4 oldest are absent and the newest 9 present.  In general,
    when a store pushes the size over the limit, the purge removes a fifth
    of the entries, rounded down, oldest [timestamp] first: what stays is
    what follows the first fifth in the stable ascending sort, and no removed
    entry is newer than an entry that stays. *)
Theorem C3_eviction_drops_oldest_fifth (cfg : Config) (type : ApiType) :
  (forall items c,
      CACHE_LIMITS cfg type = 10%nat ->
      bucket type c = [] ->
      length items = 13%nat ->
      NoDup (map_keys (map entryOf items)) ->
      StronglySorted (key_le storedAt) (map entryOf items) ->
      bucket type (storeAll cfg type items c) = map entryOf (skipn 4 items)
      /\ length (bucket type (storeAll cfg type items c)) = 9%nat)
  /\ (forall c,
        NoDup (map_keys (bucket type c)) ->
        (CACHE_LIMITS cfg type < length (bucket type c))%nat ->
        let m := bucket type c in
        let sorted := sort_by_timestamp m in
        let n := (length m / 5)%nat in
        let m' := bucket type (manageCacheSize cfg type c) in
        (length m' + n)%nat = length m
        /\ (forall en, In en m' <-> In en (skipn n sorted))
        /\ (forall en, In en (firstn n sorted) -> map_get (fst en) m' = None)
        /\ (forall old new,
              In old (firstn n sorted) -> In new m' ->
              storedAt old <= storedAt new)).
Proof.
  split.
  - intros items c Hlim Hempty Hlen Hnd Hs.
    assert (Heq : bucket type (storeAll cfg type items c)
                  = map entryOf (skipn 4 items)).
    { rewrite storeAll_in_order by assumption.
      rewrite Hlim, Hlen. change (purged 10 13) with 4%nat.
      apply skipn_map. }
    split; [exact Heq |].
    rewrite Heq, length_map, length_skipn, Hlen. reflexivity.
  - intros c. apply manageCacheSize_evicts_oldest.
Qed.

Lemma C3_eviction_drops_oldest_fifth_witness :
  bucket geocoding (storeAll (with_limit 10) geocoding thirteen_items empty_cache)
  = map entryOf (skipn 4 thirteen_items)
  /\ length (bucket geocoding
               (storeAll (with_limit 10) geocoding thirteen_items empty_cache))
     = 9%nat.
Proof.
  apply (proj1 (C3_eviction_drops_oldest_fifth (with_limit 10) geocoding)).
  - reflexivity.
  - reflexivity.
  - reflexivity.
  - repeat constructor; simpl; intuition discriminate.
  - repeat constructor; unfold key_le, storedAt; simpl; lia.
Defined.

(** ** The gateway *)

Lemma recordCall_total type s : total (recordCall type s) = total s + 1.
Proof. now destruct type. Qed.

Lemma recordCall_count type s : count type (recordCall type s) = count type s + 1.
Proof. now destruct type. Qed.

Lemma recordCall_count_other type other s :
  other <> type -> count other (recordCall type s) = count other s.
Proof. destruct type, other; simpl; congruence. Qed.

Lemma recordCall_limit type s : limit (recordCall type s) = limit s.
Proof. now destruct type. Qed.

Lemma recordCall_lastReset type s : lastReset (recordCall type s) = lastReset s.
Proof. now destruct type. Qed.

Lemma is_success_cases d :
  negb (status d =? "OK")%string && negb (status d =? "ZERO_RESULTS")%string
  = negb (is_success d).
Proof. unfold is_success. now rewrite negb_orb. Qed.

(** What the code after the [await] does, case by case. *)
Lemma handleCachedRequest_finish_spec cfg type cacheKey response now st :
  handleCachedRequest_finish cfg type cacheKey response now st =
  match response with
  | Failed message => (Rejected message, st)
  | Answered d =>
      if is_success d then
        (Resolved d,
         mkServer (cacheStore cfg type cacheKey d now (cache st))
                  (recordCall type (requestStats st)) (rateLimiter st))
      else
        (Rejected (upstream_error (status d)),
         mkServer (cache st) (recordCall type (requestStats st)) (rateLimiter st))
  end.
Proof.
  unfold handleCachedRequest_finish. destruct response as [message | d];
    [reflexivity |].
  rewrite is_success_cases. now destruct (is_success d).
Qed.

(** C2, as stated, fails: the provider answers [REQUEST_DENIED], the call is
    rejected, and it has been counted against the quota all the same. *)
Lemma C2_error_status_is_counted :
  let st := initial_server 0 in
  let d := mkPayload "REQUEST_DENIED" "" in
  let out := handleCachedRequest server_config geocoding "1 main st" 100
                                 (Answered d) 150 st in
  is_success d = false
  /\ fst out = (Rejected "Google Maps API error: REQUEST_DENIED", true)
  /\ total (requestStats st) = 0
  /\ total (requestStats (snd out)) = 1
  /\ count geocoding (requestStats (snd out)) = 1
  /\ cache (snd out) = cache st.
Proof. cbv zeta. vm_compute. repeat split. Qed.

(** C2 (amended).  For every fetch that reaches the external call, the quota
    counters ([total] and the service's counter) are incremented by one
    exactly when the provider answers, whatever the status of the answer,
    and are left alone when the call itself fails.  An answer with status
    [OK] or [ZERO_RESULTS] is returned and stored in the cache; an answer
    with any other status makes the fetch fail with the provider's status,
    and nothing is stored in the cache. *)
Theorem C2_quota_counts_every_answer (cfg : Config) (type : ApiType)
    (cacheKey : string) (response : Response) (now : Z) (st : Server) :
  let out := handleCachedRequest_finish cfg type cacheKey response now st in
  let before := requestStats st in
  let after := requestStats (snd out) in
  rateLimiter (snd out) = rateLimiter st
  /\ limit after = limit before
  /\ match response with
     | Failed message =>
         fst out = Rejected message /\ snd out = st
     | Answered d =>
         total after = total before + 1
         /\ count type after = count type before + 1
         /\ (forall other, other <> type -> count other after = count other before)
         /\ if is_success d
            then fst out = Resolved d
                 /\ cache (snd out) = cacheStore cfg type cacheKey d now (cache st)
            else fst out = Rejected (upstream_error (status d))
                 /\ cache (snd out) = cache st
     end.
Proof.
  cbv zeta. rewrite handleCachedRequest_finish_spec.
  destruct response as [message | d].
  - simpl. auto.
  - destruct (is_success d); simpl;
      rewrite recordCall_total, recordCall_count, recordCall_limit;
      repeat split; auto using recordCall_count_other.
Qed.

(** C9.  A fetch whose key has an item younger than the expiry returns the
    item's data at once, before the quota and the rate limiter are looked
    at: no external call is made, [requestStats] and [rateLimiter] are
    unchanged whatever [total] is, and in the cache only the item's
    [lastAccessed] changes. *)
Theorem C9_cache_hit_is_free (cfg : Config) (type : ApiType) (cacheKey : string)
    (now : Z) (st : Server) (e : CacheEntry) :
  map_get cacheKey (bucket type (cache st)) = Some e ->
  now - timestamp e < CACHE_EXPIRY cfg type ->
  let touched := mkEntry (data e) (timestamp e) now in
  let c' := set_bucket type (map_set cacheKey touched (bucket type (cache st)))
                       (cache st) in
  let st' := mkServer c' (requestStats st) (rateLimiter st) in
  handleCachedRequest_start cfg type cacheKey now st = (CacheHit (data e), st')
  /\ (forall response arrival,
        handleCachedRequest cfg type cacheKey now response arrival st
        = (Resolved (data e), false, st'))
  /\ (forall other, other <> type -> bucket other c' = bucket other (cache st))
  /\ (forall k, k <> cacheKey ->
        map_get k (bucket type c') = map_get k (bucket type (cache st)))
  /\ length (bucket type c') = length (bucket type (cache st)).
Proof.
  intros He Hfresh. cbv zeta.
  assert (Hstart :
    handleCachedRequest_start cfg type cacheKey now st
    = (CacheHit (data e),
       mkServer (set_bucket type
                   (map_set cacheKey (mkEntry (data e) (timestamp e) now)
                            (bucket type (cache st))) (cache st))
                (requestStats st) (rateLimiter st))).
  { unfold handleCachedRequest_start, cacheLookup. rewrite He.
    destruct (Z.ltb_spec (now - timestamp e) (CACHE_EXPIRY cfg type));
      [reflexivity | lia]. }
  split; [exact Hstart |]. split; [| split; [| split]].
  - intros response arrival. unfold handleCachedRequest. now rewrite Hstart.
  - intros other Hne. now apply bucket_set_bucket_other.
  - intros k Hne. rewrite bucket_set_bucket. now apply map_get_set_other.
  - rewrite bucket_set_bucket. apply map_get_In in He.
    clear - He. induction (bucket type (cache st)) as [| [k0 e0] r IH];
      simpl in *; [contradiction |].
    destruct (String.eqb_spec cacheKey k0); simpl; [reflexivity |].
    destruct He as [Heq | Hin]; [congruence | now rewrite IH].
Qed.

(** The hit of C9 on a server whose quota is used up ([total = limit = 50]). *)
Lemma C9_cache_hit_is_free_witness :
  let e := mkEntry (ok_payload "cached") 1000 1000 in
  let st := mkServer (mkCache [("1 main st", e)] [] [])
                     (mkStats 50 50 0 0 50 0) (mkLimiter 1000 0 0 100) in
  handleCachedRequest_start server_config geocoding "1 main st" 2000 st
  = (CacheHit (ok_payload "cached"),
     mkServer (mkCache [("1 main st", mkEntry (ok_payload "cached") 1000 2000)] [] [])
              (mkStats 50 50 0 0 50 0) (mkLimiter 1000 0 0 100)).
Proof.
  cbv zeta.
  apply (C9_cache_hit_is_free server_config geocoding "1 main st" 2000
           (mkServer (mkCache [("1 main st", mkEntry (ok_payload "cached") 1000 1000)] [] [])
                     (mkStats 50 50 0 0 50 0) (mkLimiter 1000 0 0 100))
           (mkEntry (ok_payload "cached") 1000 1000)).
  - reflexivity.
  - simpl. lia.
Defined.

(** ** Cache idempotence *)

(** A store is read back: when no entry of the bucket is newer than the
    clock and the bucket is within its limit, the purge that follows the
    store keeps the entry just stored. *)
Lemma cacheStore_get cfg type cacheKey d now c :
  Forall (fun en => storedAt en <= now) (bucket type c) ->
  (length (bucket type c) <= CACHE_LIMITS cfg type)%nat ->
  map_get cacheKey (bucket type (cacheStore cfg type cacheKey d now c))
  = Some (mkEntry d now now).
Proof.
  intros Hold Hsize. unfold cacheStore, manageCacheSize.
  rewrite !bucket_set_bucket.
  set (m := bucket type c) in *. set (item := mkEntry d now now).
  destruct (Nat.ltb_spec (CACHE_LIMITS cfg type) (length (map_set cacheKey item m)))
    as [Hover | Hfit]; rewrite bucket_set_bucket; [| apply map_get_set_same].
  destruct (in_dec string_dec cacheKey (map_keys m)) as [Hin | Hfresh].
  - rewrite map_set_present_length in Hover by exact Hin. lia.
  - unfold purge. rewrite map_get_purge; [apply map_get_set_same |].
    rewrite map_set_fresh by exact Hfresh.
    unfold sort_by_timestamp, removeCount.
    rewrite sort_by_snoc by exact Hold.
    rewrite length_app, sort_by_length. simpl length.
    rewrite firstn_app.
    replace ((length m + 1) / 5 - length (sort_by storedAt m))%nat with 0%nat.
    2:{ rewrite sort_by_length.
        pose proof (Nat.Div0.div_le_upper_bound (length m + 1) 5 (length m)).
        destruct (length m) as [| n]; [reflexivity |]. lia. }
    simpl firstn. rewrite app_nil_r. intros Hk.
    apply Hfresh. apply in_map_iff in Hk as (en & Heq & Hen).
    apply firstn_incl in Hen. apply (proj1 (sort_by_In storedAt en m)) in Hen.
    rewrite <- Heq. exact (in_map fst m en Hen).
Qed.

(** What [canMakeRequest] answers when the interval has passed. *)
Lemma canMakeRequest_admits type now this :
  minInterval this <= now - lastRequestOf type this ->
  fst (canMakeRequest type now this) = true.
Proof.
  intros Hlate. unfold canMakeRequest.
  destruct type; simpl in *;
    match goal with
    | |- context [?a <? ?b] => destruct (Z.ltb_spec a b); [lia | reflexivity]
    end.
Qed.

(** A fetch that misses the cache, with the quota and the rate limiter not
    exhausted and the provider answering [OK] or [ZERO_RESULTS]: the
    provider is called, the call is recorded and the payload is stored. *)
Lemma handleCachedRequest_miss cfg type cacheKey now d arrival st :
  cacheLookup cfg type cacheKey now (cache st) = None ->
  total (requestStats st) < limit (requestStats st) ->
  minInterval (rateLimiter st) <= now - lastRequestOf type (rateLimiter st) ->
  is_success d = true ->
  handleCachedRequest cfg type cacheKey now (Answered d) arrival st
  = (Resolved d, true,
     mkServer (cacheStore cfg type cacheKey d arrival (cache st))
              (recordCall type (requestStats st))
              (snd (canMakeRequest type now (rateLimiter st)))).
Proof.
  intros Hmiss Hquota Hrate Hok.
  pose proof (canMakeRequest_admits type now (rateLimiter st) Hrate) as Hadmit.
  unfold handleCachedRequest, handleCachedRequest_start. rewrite Hmiss.
  destruct (Z.leb_spec (limit (requestStats st)) (total (requestStats st)));
    [lia |].
  destruct (canMakeRequest type now (rateLimiter st)) as [ok rl].
  simpl in Hadmit. subst ok.
  rewrite handleCachedRequest_finish_spec, Hok. reflexivity.
Qed.

(** A fetch that finds an entry younger than the expiry returns its payload
    without calling the provider and leaves the statistics alone. *)
Lemma handleCachedRequest_hit cfg type cacheKey now response arrival st e :
  map_get cacheKey (bucket type (cache st)) = Some e ->
  now - timestamp e < CACHE_EXPIRY cfg type ->
  exists st',
    handleCachedRequest cfg type cacheKey now response arrival st
    = (Resolved (data e), false, st')
    /\ requestStats st' = requestStats st.
Proof.
  intros Hget Hyoung.
  unfold handleCachedRequest, handleCachedRequest_start, cacheLookup.
  rewrite Hget.
  destruct (Z.ltb_spec (now - timestamp e) (CACHE_EXPIRY cfg type)); [| lia].
  eexists. split; reflexivity.
Qed.

(** The state [serve] gives is the one a fetch leaves, and [GET /api/geocode]
    of an address that is not empty is a fetch of its normalised form in
    the geocoding service. *)
Lemma serve_is_fetch cfg st c :
  serve cfg st c
  = snd (fetch cfg (call_type c) (call_key c) (call_now c) (call_response c)
           (call_arrival c) st).
Proof. reflexivity. Qed.

Lemma api_geocode_is_fetch cfg a now response arrival st :
  a <> EmptyString ->
  api_geocode cfg (Some a) now response arrival st
  = (let '(r, called, st1) :=
       fetch cfg geocoding (normalizedAddress a) now response arrival st in
     (match r with
      | Resolved d => Json d
      | Rejected message => ServerError message
      end, called, st1)).
Proof.
  intros Ha. destruct a as [| c r]; [contradiction |].
  unfold api_geocode, fetch.
  now destruct (handleCachedRequest cfg geocoding (normalizedAddress (String c r))
                  now response arrival (checkSessionReset now st))
    as [[[d | message] called] st1].
Qed.

(** C5.  Two consecutive fetches of the same key of the same service, as
    the routes run them (the middleware with its session reset, then
    [handleCachedRequest]).  The first misses the cache, with the quota and
    the rate limiter not exhausted and the provider answering [OK] or
    [ZERO_RESULTS].  When the second fetch starts before the entry stored by
    the first has reached its expiry AND no session reset falls between the
    two (the second starts no later than 24 hours after the last reset),
    the provider is called once, by the first fetch, both fetches return
    the same payload, and one call is recorded.  [st0] is the state the
    first fetch works on, after its middleware; its bucket is within its
    limit and holds no entry dated later than the clock, as in every state
    the server reaches. *)
Theorem C5_one_call_between_session_resets (cfg : Config) (type : ApiType)
    (cacheKey : string) (now1 arrival1 now2 arrival2 : Z) (d : Payload)
    (response2 : Response) (st : Server) :
  let st0 := checkSessionReset now1 st in
  Forall (fun en => storedAt en <= arrival1) (bucket type (cache st0)) ->
  (length (bucket type (cache st0)) <= CACHE_LIMITS cfg type)%nat ->
  cacheLookup cfg type cacheKey now1 (cache st0) = None ->
  total (requestStats st0) < limit (requestStats st0) ->
  minInterval (rateLimiter st0) <= now1 - lastRequestOf type (rateLimiter st0) ->
  is_success d = true ->
  now2 - arrival1 < CACHE_EXPIRY cfg type ->
  now2 - lastReset (requestStats st0) <= SESSION_WINDOW ->
  exists st1 st2,
    fetch cfg type cacheKey now1 (Answered d) arrival1 st = (Resolved d, true, st1)
    /\ fetch cfg type cacheKey now2 response2 arrival2 st1
       = (Resolved d, false, st2)
    /\ total (requestStats st2) = total (requestStats st0) + 1
    /\ count type (requestStats st2) = count type (requestStats st0) + 1.
Proof.
  intros st0 Hold Hsize Hmiss Hquota Hrate Hok Hwindow Hsession.
  unfold fetch. fold st0.
  rewrite (handleCachedRequest_miss cfg type cacheKey now1 d arrival1 st0
             Hmiss Hquota Hrate Hok).
  set (st1 := mkServer (cacheStore cfg type cacheKey d arrival1 (cache st0))
                       (recordCall type (requestStats st0))
                       (snd (canMakeRequest type now1 (rateLimiter st0)))).
  assert (Hstay : checkSessionReset now2 st1 = st1).
  { unfold checkSessionReset. subst st1. cbn [requestStats].
    rewrite recordCall_lastReset.
    destruct (Z.ltb_spec SESSION_WINDOW (now2 - lastReset (requestStats st0)));
      [lia | reflexivity]. }
  assert (Hget : map_get cacheKey (bucket type (cache st1))
                 = Some (mkEntry d arrival1 arrival1))
    by (subst st1; cbn [cache]; now apply cacheStore_get).
  destruct (handleCachedRequest_hit cfg type cacheKey now2 response2 arrival2
              st1 _ Hget Hwindow) as (st2 & Hsecond & Hstats).
  exists st1, st2. split; [reflexivity |].
  rewrite Hstay. split; [exact Hsecond |].
  rewrite Hstats. subst st1. cbn [requestStats].
  now rewrite recordCall_total, recordCall_count.
Qed.

(** The two fetches of C5 on a server just started. *)
Lemma C5_one_call_between_session_resets_witness :
  exists st1 st2,
    fetch server_config geocoding "1 main st" 100
      (Answered (ok_payload "38.58,-121.49")) 150 (initial_server 0)
    = (Resolved (ok_payload "38.58,-121.49"), true, st1)
    /\ fetch server_config geocoding "1 main st" 200 (Failed "unused") 250 st1
       = (Resolved (ok_payload "38.58,-121.49"), false, st2)
    /\ total (requestStats st2)
       = total (requestStats (checkSessionReset 100 (initial_server 0))) + 1
    /\ count geocoding (requestStats st2)
       = count geocoding (requestStats (checkSessionReset 100 (initial_server 0)))
         + 1.
Proof.
  apply (C5_one_call_between_session_resets server_config geocoding "1 main st"
           100 150 200 250 (ok_payload "38.58,-121.49") (Failed "unused")
           (initial_server 0)).
  - constructor.
  - simpl. lia.
  - reflexivity.
  - simpl. lia.
  - simpl. lia.
  - reflexivity.
  - simpl. lia.
  - vm_compute. discriminate.
Defined.

(** C5, as the specification words it, fails when the 24 hour window ends
    between the two fetches.  A server started at 0 geocodes an address one
    second before the window ends; the provider answers [OK] 50 ms later.
    The same address is fetched again two seconds after the first fetch:
    the entry is 1950 ms old, far from the 30 minutes of its expiry, the
    quota stands at 1 of 50 and the rate limiter's 100 ms have passed, but
    the middleware of the second fetch resets the session and empties the
    cache, so the provider is called a second time. *)
Lemma C5_session_reset_between_fetches :
  fst (fetch server_config geocoding "1 main st" (SESSION_WINDOW - 1000)
         (Answered (ok_payload "38.58,-121.49")) (SESSION_WINDOW - 950)
         (initial_server 0))
  = (Resolved (ok_payload "38.58,-121.49"), true)
  /\ fst (fetch server_config geocoding "1 main st" (SESSION_WINDOW + 1000)
            (Answered (ok_payload "38.58,-121.49")) (SESSION_WINDOW + 1050)
            (snd (fetch server_config geocoding "1 main st"
                    (SESSION_WINDOW - 1000)
                    (Answered (ok_payload "38.58,-121.49"))
                    (SESSION_WINDOW - 950) (initial_server 0))))
     = (Resolved (ok_payload "38.58,-121.49"), true)
  /\ (SESSION_WINDOW + 1000) - (SESSION_WINDOW - 950)
     < CACHE_EXPIRY server_config geocoding
  /\ total (requestStats
              (snd (fetch server_config geocoding "1 main st"
                      (SESSION_WINDOW - 1000)
                      (Answered (ok_payload "38.58,-121.49"))
                      (SESSION_WINDOW - 950) (initial_server 0))))
     = 1
  /\ limit (requestStats (initial_server 0)) = 50
  /\ minInterval (rateLimiter (initial_server 0))
     <= (SESSION_WINDOW + 1000) - (SESSION_WINDOW - 1000).
Proof.
  repeat split; vm_compute; congruence.
Qed.

(** After a hit the same key hits again for as long as the entry is younger
    than the expiry. *)
Lemma cache_hit_repeats cfg type cacheKey now1 now2 st d st1 :
  handleCachedRequest_start cfg type cacheKey now1 st = (CacheHit d, st1) ->
  (forall e, map_get cacheKey (bucket type (cache st)) = Some e ->
             now2 - timestamp e < CACHE_EXPIRY cfg type) ->
  exists st2,
    handleCachedRequest_start cfg type cacheKey now2 st1 = (CacheHit d, st2).
Proof.
  unfold handleCachedRequest_start at 1. unfold cacheLookup.
  destruct (map_get cacheKey (bucket type (cache st))) as [e |] eqn:He.
  - destruct (now1 - timestamp e <? CACHE_EXPIRY cfg type).
    + intros Heq Hwin. injection Heq as <- <-.
      specialize (Hwin e eq_refl).
      unfold handleCachedRequest_start, cacheLookup. simpl cache.
      rewrite bucket_set_bucket, map_get_set_same. simpl.
      destruct (Z.ltb_spec (now2 - timestamp e) (CACHE_EXPIRY cfg type)); [| lia].
      eexists. reflexivity.
    + destruct (limit (requestStats st) <=? total (requestStats st));
        [discriminate |].
      destruct (canMakeRequest type now1 (rateLimiter st)) as [[|] rl];
        discriminate.
  - destruct (limit (requestStats st) <=? total (requestStats st));
      [discriminate |].
    destruct (canMakeRequest type now1 (rateLimiter st)) as [[|] rl];
      discriminate.
Qed.

(** ** Session quota *)

(** At the limit, a fetch that misses the cache is refused before the rate
    limiter is consulted, and nothing changes. *)
Lemma quota_refuses_at_limit cfg type cacheKey now st :
  cacheLookup cfg type cacheKey now (cache st) = None ->
  limit (requestStats st) <= total (requestStats st) ->
  handleCachedRequest_start cfg type cacheKey now st
  = (Refused REQUEST_LIMIT_REACHED, st)
  /\ forall response arrival,
       handleCachedRequest cfg type cacheKey now response arrival st
       = (Rejected REQUEST_LIMIT_REACHED, false, st).
Proof.
  intros Hmiss Hfull.
  assert (Hstart : handleCachedRequest_start cfg type cacheKey now st
                   = (Refused REQUEST_LIMIT_REACHED, st)).
  { unfold handleCachedRequest_start. rewrite Hmiss.
    destruct (Z.leb_spec (limit (requestStats st)) (total (requestStats st)));
      [reflexivity | lia]. }
  split; [exact Hstart |].
  intros response arrival. unfold handleCachedRequest. now rewrite Hstart.
Qed.

Lemma handleCachedRequest_start_stats cfg type cacheKey now st :
  requestStats (snd (handleCachedRequest_start cfg type cacheKey now st))
  = requestStats st.
Proof.
  unfold handleCachedRequest_start.
  destruct (cacheLookup cfg type cacheKey now (cache st)) as [[d c'] |];
    [reflexivity |].
  destruct (limit (requestStats st) <=? total (requestStats st)); [reflexivity |].
  destruct (canMakeRequest type now (rateLimiter st)) as [[|] rl]; reflexivity.
Qed.

Lemma handleCachedRequest_start_Requested cfg type cacheKey now st st' :
  handleCachedRequest_start cfg type cacheKey now st = (Requested, st') ->
  total (requestStats st) < limit (requestStats st).
Proof.
  unfold handleCachedRequest_start.
  destruct (cacheLookup cfg type cacheKey now (cache st)) as [[d c'] |];
    [discriminate |].
  destruct (Z.leb_spec (limit (requestStats st)) (total (requestStats st)));
    [discriminate | auto].
Qed.

(** A call that nothing interleaves with keeps [total] within [limit]. *)
Lemma handleCachedRequest_keeps_ceiling cfg type cacheKey now response arrival st :
  total (requestStats st) <= limit (requestStats st) ->
  let st' := snd (handleCachedRequest cfg type cacheKey now response arrival st) in
  total (requestStats st') <= limit (requestStats st')
  /\ limit (requestStats st') = limit (requestStats st).
Proof.
  intros Hle. cbv zeta. unfold handleCachedRequest.
  pose proof (handleCachedRequest_start_stats cfg type cacheKey now st) as Hstats.
  destruct (handleCachedRequest_start cfg type cacheKey now st) as [[d | m |] st1] eqn:Hs;
    simpl in Hstats; simpl; try (rewrite Hstats; auto).
  apply handleCachedRequest_start_Requested in Hs.
  rewrite handleCachedRequest_finish_spec.
  destruct response as [message | d]; [| destruct (is_success d)]; simpl;
    rewrite ?recordCall_total, ?recordCall_limit, Hstats; lia.
Qed.

Lemma checkSessionReset_keeps_ceiling now st :
  0 <= limit (requestStats st) ->
  total (requestStats st) <= limit (requestStats st) ->
  total (requestStats (checkSessionReset now st))
  <= limit (requestStats (checkSessionReset now st))
  /\ limit (requestStats (checkSessionReset now st)) = limit (requestStats st).
Proof.
  intros Hpos Hle. unfold checkSessionReset.
  destruct (SESSION_WINDOW <? now - lastReset (requestStats st)); simpl; lia.
Qed.

(** Requests served one after the other keep [total] within [limit]. *)
Lemma serveAll_keeps_ceiling cfg calls :
  forall st,
    0 <= limit (requestStats st) ->
    total (requestStats st) <= limit (requestStats st) ->
    total (requestStats (serveAll cfg calls st))
    <= limit (requestStats (serveAll cfg calls st))
    /\ limit (requestStats (serveAll cfg calls st)) = limit (requestStats st).
Proof.
  induction calls as [| c calls IH]; intros st Hpos Hle; simpl; [auto |].
  destruct (checkSessionReset_keeps_ceiling (call_now c) st Hpos Hle) as [H1 H2].
  destruct (handleCachedRequest_keeps_ceiling cfg (call_type c) (call_key c)
              (call_now c) (call_response c) (call_arrival c)
              (checkSessionReset (call_now c) st) H1) as [H3 H4].
  fold (serve cfg st c) in H3, H4.
  destruct (IH (serve cfg st c)) as [H5 H6]; [lia | exact H3 |].
  split; [exact H5 | lia].
Qed.

(** C4 (the code departs from it).  The limit is checked before the call to
    the provider and the call is counted after it.  49 requests are made and
    answered one by one; the next two are both admitted, 100 ms apart, while
    [total] is 49, and when their answers arrive [total] is 51 under a limit
    of 50. *)
Theorem C4_overlapping_calls_exceed_limit :
  let admitted := run server_config (firstn 100 overlapping_trace) (boot 0) in
  let settled := run server_config overlapping_trace (boot 0) in
  chronological 0 overlapping_trace = true
  /\ total (requestStats (server admitted)) = 49
  /\ in_flight admitted = [(geocoding, key_of 50); (geocoding, key_of 51)]
  /\ in_flight settled = []
  /\ limit (requestStats (server settled)) = 50
  /\ total (requestStats (server settled)) = 51.
Proof. cbv zeta. vm_compute. repeat split. Qed.

(** ** The buckets of a running server *)

Lemma cache_ok_later cfg t t' c : t <= t' -> cache_ok cfg t c -> cache_ok cfg t' c.
Proof.
  intros Hle Hok type. destruct (Hok type) as (Hnd & Hlen & Hts).
  repeat split; auto. eapply Forall_impl; [| exact Hts]. simpl. intros; lia.
Qed.

Lemma cache_ok_empty cfg t : cache_ok cfg t empty_cache.
Proof. intros []; repeat split; simpl; try constructor; lia. Qed.

Lemma cacheLookup_ok cfg type cacheKey now t c d c' :
  cacheLookup cfg type cacheKey now c = Some (d, c') ->
  cache_ok cfg t c -> cache_ok cfg t c'.
Proof.
  unfold cacheLookup.
  destruct (map_get cacheKey (bucket type c)) as [e |] eqn:He; [| discriminate].
  destruct (now - timestamp e <? CACHE_EXPIRY cfg type); [| discriminate].
  intros Heq Hok other. injection Heq as _ <-.
  destruct (Hok other) as (Hnd & Hlen & Hts).
  destruct (ApiType_eq_dec other type) as [-> | Hne].
  - apply map_get_In in He. assert (Hin : In cacheKey (map_keys (bucket type c))).
    { apply (in_map fst) in He. exact He. }
    unfold bucket_ok. rewrite bucket_set_bucket.
    rewrite map_set_present_keys, map_set_present_length by exact Hin.
    repeat split; auto. apply map_set_Forall; [exact Hts |].
    rewrite Forall_forall in Hts. apply (Hts _ He).
  - unfold bucket_ok. now rewrite bucket_set_bucket_other.
Qed.

Lemma cacheStore_ok cfg type cacheKey d now t c :
  (4 <= CACHE_LIMITS cfg type)%nat -> t <= now ->
  cache_ok cfg t c -> cache_ok cfg now (cacheStore cfg type cacheKey d now c).
Proof.
  intros Hlim Hle Hok other.
  destruct (cache_ok_later cfg t now c Hle Hok other) as (Hnd & Hlen & Hts).
  unfold cacheStore, bucket_ok.
  destruct (ApiType_eq_dec other type) as [-> | Hne].
  - set (c1 := set_bucket type _ c).
    assert (Hb : bucket type c1
                 = map_set cacheKey (mkEntry d now now) (bucket type c))
      by apply bucket_set_bucket.
    repeat split.
    + apply manageCacheSize_NoDup. rewrite Hb. now apply map_set_NoDup.
    + apply manageCacheSize_length; [exact Hlim | |]; rewrite Hb.
      * now apply map_set_NoDup.
      * pose proof (map_set_length cacheKey (mkEntry d now now) (bucket type c)).
        lia.
    + apply manageCacheSize_Forall. rewrite Hb.
      apply map_set_Forall; [exact Hts | unfold storedAt; simpl; lia].
  - rewrite manageCacheSize_other, bucket_set_bucket_other by exact Hne.
    repeat split; assumption.
Qed.

Lemma checkSessionReset_ok cfg now t st :
  cache_ok cfg t (cache st) -> cache_ok cfg t (cache (checkSessionReset now st)).
Proof.
  intros Hok. unfold checkSessionReset.
  destruct (SESSION_WINDOW <? now - lastReset (requestStats st));
    [apply cache_ok_empty | exact Hok].
Qed.

Lemma handleCachedRequest_start_ok cfg type cacheKey now t st :
  cache_ok cfg t (cache st) ->
  cache_ok cfg t (cache (snd (handleCachedRequest_start cfg type cacheKey now st))).
Proof.
  intros Hok. unfold handleCachedRequest_start.
  destruct (cacheLookup cfg type cacheKey now (cache st)) as [[d c'] |] eqn:Hl.
  - simpl. eapply cacheLookup_ok; eauto.
  - destruct (limit (requestStats st) <=? total (requestStats st)); [exact Hok |].
    destruct (canMakeRequest type now (rateLimiter st)) as [[|] rl]; exact Hok.
Qed.

Lemma handleCachedRequest_finish_ok cfg type cacheKey response now t st :
  (4 <= CACHE_LIMITS cfg type)%nat -> t <= now ->
  cache_ok cfg t (cache st) ->
  cache_ok cfg now
    (cache (snd (handleCachedRequest_finish cfg type cacheKey response now st))).
Proof.
  intros Hlim Hle Hok. rewrite handleCachedRequest_finish_spec.
  destruct response as [message | d]; [| destruct (is_success d)]; simpl.
  - now apply (cache_ok_later cfg t).
  - now apply (cacheStore_ok cfg type cacheKey d now t).
  - now apply (cache_ok_later cfg t).
Qed.

Lemma step_ok cfg t sys ev :
  (forall type, (4 <= CACHE_LIMITS cfg type)%nat) ->
  t <= event_time ev ->
  cache_ok cfg t (cache (server sys)) ->
  cache_ok cfg (event_time ev) (cache (server (step cfg sys ev))).
Proof.
  intros Hlim Hle Hok. destruct ev as [type cacheKey now | n response now | now];
    simpl in *.
  - pose proof (handleCachedRequest_start_ok cfg type cacheKey now now
                  (checkSessionReset now (server sys))) as H.
    destruct (handleCachedRequest_start cfg type cacheKey now
                (checkSessionReset now (server sys))) as [[d | m |] st1];
      simpl in *; apply H, checkSessionReset_ok;
      now apply (cache_ok_later cfg t).
  - destruct (nth_error (in_flight sys) n) as [[type cacheKey] |].
    + pose proof (handleCachedRequest_finish_ok cfg type cacheKey response now t
                    (server sys) (Hlim type) Hle Hok) as H.
      destruct (handleCachedRequest_finish cfg type cacheKey response now (server sys)).
      exact H.
    + now apply (cache_ok_later cfg t).
  - apply cache_ok_empty.
Qed.

(** In every state the server reaches along a trace whose clock does not
    run backwards, each bucket has unique keys, is within its limit and holds
    no entry dated later than the clock. *)
Lemma run_ok cfg events :
  (forall type, (4 <= CACHE_LIMITS cfg type)%nat) ->
  forall from sys,
    chronological from events = true ->
    cache_ok cfg from (cache (server sys)) ->
    cache_ok cfg (last_time from events) (cache (server (run cfg events sys))).
Proof.
  intros Hlim. induction events as [| ev events IH]; intros from sys Hchron Hok;
    simpl in *; [exact Hok |].
  apply andb_prop in Hchron as [Hle Hrest]. apply Z.leb_le in Hle.
  apply IH; [exact Hrest |]. now apply (step_ok cfg from).
Qed.

Lemma server_config_limits type : (4 <= CACHE_LIMITS server_config type)%nat.
Proof. destruct type; simpl; lia. Qed.

(** The same for the server as configured, from its start. *)
Lemma reachable_cache_ok events start :
  chronological start events = true ->
  cache_ok server_config (last_time start events)
           (cache (server (run server_config events (boot start)))).
Proof.
  intros Hchron. apply run_ok; [exact server_config_limits | exact Hchron |].
  apply cache_ok_empty.
Qed.

(** ** Geocoding one address *)

Lemma trimStart_blank s :
  (forall c, In c (list_ascii_of_string s) -> is_whitespace c = true) ->
  trimStart s = EmptyString.
Proof.
  induction s as [| c r IH]; simpl; intros Hall; [reflexivity |].
  rewrite (Hall c (or_introl eq_refl)). apply IH. intros c' Hin.
  apply Hall. now right.
Qed.

Lemma toLowerCase_blank s :
  (forall c, In c (list_ascii_of_string s) -> is_whitespace c = true) ->
  toLowerCase s = s.
Proof.
  induction s as [| c r IH]; simpl; intros Hall; [reflexivity |].
  rewrite IH by (intros c' Hin; apply Hall; now right).
  f_equal. specialize (Hall c (or_introl eq_refl)).
  unfold is_whitespace in Hall. unfold lower.
  destruct ((65 <=? nat_of_ascii c)%nat && (nat_of_ascii c <=? 90)%nat) eqn:Hup;
    [| reflexivity].
  apply andb_prop in Hup as [H1 H2].
  apply Nat.leb_le in H1. apply Nat.leb_le in H2.
  apply orb_prop in Hall as [H32 | H913].
  - apply Nat.eqb_eq in H32. lia.
  - apply andb_prop in H913 as [_ H13]. apply Nat.leb_le in H13. lia.
Qed.

(** An address made of white space only is keyed by the empty string. *)
Lemma normalizedAddress_blank s :
  (forall c, In c (list_ascii_of_string s) -> is_whitespace c = true) ->
  normalizedAddress s = EmptyString.
Proof.
  intros Hall. unfold normalizedAddress, trim.
  rewrite toLowerCase_blank by exact Hall.
  now rewrite trimStart_blank.
Qed.

(** C7 (the code departs from it).  [GET /api/geocode] answers 400 without
    touching the gateway when the address is missing or empty.  An address
    that is not empty but blank passes the [!address] test: the handler
    hands it to [handleCachedRequest] under the empty cache key, and on a
    fresh server the provider is called, although [fetchCoordinates] in the
    front end refuses the same address. *)
Theorem C7_blank_address_reaches_provider :
  (forall cfg now response arrival st,
      api_geocode cfg (Some EmptyString) now response arrival st
      = (BadRequest "Address is required", false, checkSessionReset now st))
  /\ (forall cfg now response arrival st,
        api_geocode cfg None now response arrival st
        = (BadRequest "Address is required", false, checkSessionReset now st))
  /\ (forall cfg c r now response arrival st,
        api_geocode cfg (Some (String c r)) now response arrival st
        = match handleCachedRequest cfg geocoding (normalizedAddress (String c r))
                                    now response arrival (checkSessionReset now st) with
          | (Resolved d, called, st1) => (Json d, called, st1)
          | (Rejected message, called, st1) => (ServerError message, called, st1)
          end)
  /\ normalizedAddress "   " = EmptyString
  /\ fetchCoordinates_accepts "   " = false
  /\ (forall response arrival,
        snd (fst (api_geocode server_config (Some "   ") 100 response arrival
                              (initial_server 0))) = true)
  /\ api_geocode server_config (Some "   ") 100
                 (Answered (mkPayload "ZERO_RESULTS" "")) 150 (initial_server 0)
     = (Json (mkPayload "ZERO_RESULTS" ""), true,
        mkServer (mkCache [("", mkEntry (mkPayload "ZERO_RESULTS" "") 150 150)] [] [])
                 (mkStats 1 1 0 0 50 0) (mkLimiter 100 0 0 100)).
Proof.
  repeat split.
  intros response arrival.
  unfold api_geocode, handleCachedRequest. simpl.
  destruct (handleCachedRequest_finish server_config geocoding
              (normalizedAddress "   ") response arrival _) as [[d | m] st'];
    reflexivity.
Qed.

(** ** Batch geocoding *)

Lemma Partitioned_app {A : Type} (l1 l2 a1 a2 b1 b2 : list A) :
  Partitioned l1 a1 b1 -> Partitioned l2 a2 b2 ->
  Partitioned (l1 ++ l2) (a1 ++ a2) (b1 ++ b2).
Proof.
  intros H1 H2. induction H1; simpl; [exact H2 | |];
    constructor; assumption.
Qed.

Lemma Partitioned_length {A : Type} (l a b : list A) :
  Partitioned l a b -> length l = (length a + length b)%nat.
Proof. induction 1; simpl; lia. Qed.

(** Every item handed to [classify] lands in one of the two arrays, at its
    end. *)
Lemma classify_fold (items : list BatchItem) (acc : BatchResult) :
  exists R E,
    fold_left classify items acc
    = mkBatchResult (results acc ++ R) (errors acc ++ E)
    /\ Partitioned (map item_address items) (map fst R) (map fst E).
Proof.
  revert acc. induction items as [| it items IH]; intros acc; simpl.
  - exists [], []. rewrite !app_nil_r. destruct acc. split; constructor.
  - destruct (IH (classify acc it)) as (R & E & Hfold & Hpart).
    rewrite Hfold. destruct it as [a d | a message]; simpl.
    + exists ((a, Some d) :: R), E. rewrite <- app_assoc. simpl.
      split; [reflexivity | now constructor].
    + destruct (message =? "")%string; simpl.
      * exists ((a, None) :: R), E. rewrite <- app_assoc. simpl.
        split; [reflexivity | now constructor].
      * exists R, ((a, message) :: E). rewrite <- app_assoc. simpl.
        split; [reflexivity | now constructor].
Qed.

Lemma startAll_addresses cfg batch now st :
  map fst (fst (startAll cfg batch now st)) = batch.
Proof.
  revert st. induction batch as [| a rest IH]; intros st; simpl; [reflexivity |].
  destruct (handleCachedRequest_start cfg geocoding (normalizedAddress a) now st)
    as [s st1].
  specialize (IH st1). destruct (startAll cfg rest now st1) as [ss st2].
  simpl in *. now rewrite IH.
Qed.

Lemma item_address_settle finished i a s :
  item_address (settle finished i a s) = a.
Proof.
  destruct s; simpl; try reflexivity.
  destruct (find _ finished) as [[j [d | m]] |]; reflexivity.
Qed.

Lemma settled_addresses finished (started : list (string * Started)) (from : nat) :
  map item_address
      (map (fun '(i, (a, s)) => settle finished i a s)
           (combine (seq from (length started)) started))
  = map fst started.
Proof.
  revert from. induction started as [| [a s] r IH]; intros from; simpl;
    [reflexivity |].
  now rewrite item_address_settle, IH.
Qed.

(** [Promise.all] keeps the order of the batch. *)
Lemma runBatch_addresses cfg net batch now st :
  map item_address (fst (fst (runBatch cfg net batch now st))) = batch.
Proof.
  unfold runBatch.
  pose proof (startAll_addresses cfg batch now st) as Hstart.
  destruct (startAll cfg batch now st) as [started st1]. simpl in Hstart.
  destruct (finishAll cfg _ st1) as [finished st2]. simpl.
  now rewrite settled_addresses.
Qed.

Lemma batchGeocode_loop_partitions cfg net fuel :
  forall addresses now acc st,
    (length addresses <= fuel)%nat ->
    exists R E st',
      batchGeocode_loop cfg net fuel addresses now acc st
      = (mkBatchResult (results acc ++ R) (errors acc ++ E), st')
      /\ Partitioned addresses (map fst R) (map fst E).
Proof.
  induction fuel as [| fuel IH]; intros addresses now acc st Hlen.
  - destruct addresses; [| simpl in Hlen; lia].
    exists [], [], st. simpl. rewrite !app_nil_r. destruct acc.
    split; constructor.
  - destruct addresses as [| a rest].
    + exists [], [], st. simpl. rewrite !app_nil_r. destruct acc.
      split; constructor.
    + cbn [batchGeocode_loop].
      pose proof (runBatch_addresses cfg net (firstn 5 (a :: rest)) now st) as Hbatch.
      destruct (runBatch cfg net (firstn 5 (a :: rest)) now st)
        as [[batchResults settled] st1].
      cbn [fst] in Hbatch.
      destruct (classify_fold batchResults acc) as (R1 & E1 & Hfold & Hpart1).
      rewrite Hfold.
      match goal with
      | |- context [batchGeocode_loop cfg net fuel ?l ?t ?acc1 st1] =>
          destruct (IH l t acc1 st1) as (R2 & E2 & st' & Hloop & Hpart2)
      end.
      { rewrite length_skipn. simpl in Hlen. simpl length. lia. }
      rewrite Hloop. simpl results. simpl errors.
      exists (R1 ++ R2)%list, (E1 ++ E2)%list, st'. rewrite !app_assoc.
      split; [reflexivity |].
      rewrite Hbatch in Hpart1. rewrite !map_app.
      rewrite <- (firstn_skipn 5 (a :: rest)) at 1.
      now apply Partitioned_app.
Qed.

(** C8.  For a list of addresses that is not empty, [POST /api/geocode/batch]
    answers with [{ results, errors }] in which every address of the input
    occurs exactly once, in [results] or in [errors], and both keep the
    order of the input; the failure of one address neither stops the others
    nor fails the call.  Only the empty list is refused as a whole. *)
Theorem C8_batch_partitions_inputs (cfg : Config) (net : Network)
    (addresses : list string) (now : Z) (st : Server) :
  addresses <> [] ->
  (exists r st',
      api_geocode_batch cfg net (Some addresses) now st = (Json r, st')
      /\ Partitioned addresses (map fst (results r)) (map fst (errors r))
      /\ (length (results r) + length (errors r))%nat = length addresses)
  /\ fst (api_geocode_batch cfg net (Some []) now st)
     = BadRequest "Array of addresses is required".
Proof.
  intros Hne. split; [| reflexivity].
  unfold api_geocode_batch, batchGeocode.
  destruct addresses as [| a rest]; [contradiction |].
  destruct (batchGeocode_loop_partitions cfg net (length (a :: rest)) (a :: rest)
              now (mkBatchResult [] []) (checkSessionReset now st) (le_n _))
    as (R & E & st' & Hloop & Hpart).
  rewrite Hloop. simpl. exists (mkBatchResult R E), st'. simpl.
  split; [reflexivity |]. split; [exact Hpart |].
  apply Partitioned_length in Hpart. rewrite !length_map in Hpart.
  symmetry. exact Hpart.
Qed.

(** The batch of seven addresses, the fourth one empty. *)
Lemma C8_batch_partitions_inputs_witness :
  exists r st',
    api_geocode_batch server_config sample_network (Some sample_addresses) 1000
                      (initial_server 0) = (Json r, st')
    /\ Partitioned sample_addresses (map fst (results r)) (map fst (errors r))
    /\ (length (results r) + length (errors r))%nat = length sample_addresses.
Proof.
  refine (proj1 (C8_batch_partitions_inputs server_config sample_network
                   sample_addresses 1000 (initial_server 0) _)).
  discriminate.
Defined.

Lemma finishAll_indices cfg arrivals st :
  map fst (fst (finishAll cfg arrivals st)) = map p_index arrivals.
Proof.
  revert st. induction arrivals as [| p rest IH]; intros st; simpl;
    [reflexivity |].
  destruct (handleCachedRequest_finish cfg geocoding _ _ _ st) as [r st1].
  specialize (IH st1). destruct (finishAll cfg rest st1) as [rs st2].
  simpl in *. now rewrite IH.
Qed.

Lemma find_index (finished : list (nat * Result)) i :
  In i (map fst finished) ->
  find (fun x => Nat.eqb (fst x) i) finished <> None.
Proof.
  induction finished as [| [j r] rest IH]; simpl; [tauto |].
  destruct (Nat.eqb_spec j i); [discriminate |].
  intros [Heq | Hin]; [contradiction | now apply IH].
Qed.

Lemma pendingOf_indices net now indexed i a :
  In (i, (a, Requested)) indexed ->
  In i (map p_index (pendingOf net now indexed)).
Proof.
  unfold pendingOf. induction indexed as [| [j [b s]] rest IH]; simpl;
    [tauto |].
  intros [Heq | Hin]; rewrite map_app; apply in_or_app.
  - left. injection Heq as -> -> ->. destruct (net a now). simpl. now left.
  - right. now apply IH.
Qed.

(** In a group, the continuation of every call made to the provider runs:
    the last case of [settle] does not occur. *)
Lemma runBatch_every_call_settles cfg net now st1 (indexed : list (nat * (string * Started))) i a :
  In (i, (a, Requested)) indexed ->
  find (fun x => Nat.eqb (fst x) i)
       (fst (finishAll cfg (sort_by p_arrival (pendingOf net now indexed)) st1))
  <> None.
Proof.
  intros Hin. apply find_index. rewrite finishAll_indices.
  apply (pendingOf_indices net now) in Hin.
  eapply Permutation_in; [| exact Hin].
  apply Permutation_map. symmetry. apply sort_by_perm.
Qed.

(** ** Midpoint *)

(** C10.  With two coordinates the midpoint is, in each coordinate, the sum
    of the two values halved (further coordinates are not read); with no
    coordinate or one it is the fixed centre (38.5816, -121.4944).  The average is planar: across the
    antimeridian, the midpoint of longitudes 179 and -179 is longitude 0. *)
Theorem C10_midpoint_is_coordinate_mean :
  (forall p q : LatLng,
      midpoint [p; q]
      = mkLatLng ((lat p + lat q) / 2)%float ((lng p + lng q) / 2)%float)
  /\ (forall (p q : LatLng) (more : list LatLng),
        midpoint (p :: q :: more) = midpoint [p; q])
  /\ midpoint [] = mkLatLng 38.5816%float (-121.4944)%float
  /\ (forall p : LatLng,
        midpoint [p] = mkLatLng 38.5816%float (-121.4944)%float)
  /\ midpoint [mkLatLng 10%float 179%float; mkLatLng 20%float (-179)%float]
     = mkLatLng 15%float 0%float.
Proof. repeat split. Qed.

(** ** Runs on small inputs *)

(** Two fetches of different keys 10 ms apart: the second is rate limited.
    150 ms apart, both reach the provider. *)
Example rate_limit_10ms :
  let st1 := snd (handleCachedRequest server_config geocoding "a" 1000
                    (Answered (ok_payload "a")) 1005 (initial_server 0)) in
  fst (handleCachedRequest server_config geocoding "b" 1010
         (Answered (ok_payload "b")) 1015 st1)
  = (Rejected RATE_LIMIT_REACHED, false).
Proof. reflexivity. Qed.

Example rate_limit_150ms :
  let st1 := snd (handleCachedRequest server_config geocoding "a" 1000
                    (Answered (ok_payload "a")) 1005 (initial_server 0)) in
  fst (handleCachedRequest server_config geocoding "b" 1150
         (Answered (ok_payload "b")) 1155 st1)
  = (Resolved (ok_payload "b"), true).
Proof. reflexivity. Qed.

(** With a limit of 3, the fourth of four fetches of new keys is refused and
    3 calls are recorded. *)
Example quota_of_three :
  let st0 := mkServer empty_cache (mkStats 0 0 0 0 3 0) initial_rateLimiter in
  let calls := map (fun n => mkCall geocoding (key_of n) (200 * Z.of_nat n)
                                    (Answered (ok_payload (key_of n)))
                                    (200 * Z.of_nat n + 50)) (seq 1 3) in
  let st3 := serveAll server_config calls st0 in
  total (requestStats st3) = 3
  /\ fst (handleCachedRequest server_config geocoding (key_of 4) 800
            (Answered (ok_payload (key_of 4))) 850 st3)
     = (Rejected REQUEST_LIMIT_REACHED, false)
  /\ fst (handleCachedRequest server_config geocoding (key_of 2) 800
            (Failed "unused") 850 st3)
     = (Resolved (ok_payload (key_of 2)), false).
Proof. cbv zeta. vm_compute. repeat split. Qed.

(** The batch of seven addresses on a fresh server: within a group every
    address after the first is rate limited. *)
Example batch_of_seven :
  fst (api_geocode_batch server_config sample_network (Some sample_addresses)
                         1000 (initial_server 0))
  = Json (mkBatchResult
            [("1 main st", Some (ok_payload "1 main st"));
             ("6 fir ct", Some (ok_payload "6 fir ct"))]
            [("2 oak ave", RATE_LIMIT_REACHED); ("3 elm rd", RATE_LIMIT_REACHED);
             ("", RATE_LIMIT_REACHED); ("5 pine ln", RATE_LIMIT_REACHED);
             ("7 ash way", RATE_LIMIT_REACHED)]).
Proof. vm_compute. reflexivity. Qed.

(** Two requests for the same address two seconds apart, the session window
    ending between them: the middleware empties the cache before the second
    one, which calls the provider again. *)
Example session_reset_between_requests :
  let first := api_geocode server_config (Some "1 Main St") (SESSION_WINDOW - 1000)
                 (Answered (ok_payload "38.58,-121.49")) (SESSION_WINDOW - 950)
                 (initial_server 0) in
  let second := api_geocode server_config (Some "1 Main St") (SESSION_WINDOW + 1000)
                  (Answered (ok_payload "38.58,-121.49")) (SESSION_WINDOW + 1050)
                  (snd first) in
  fst first = (Json (ok_payload "38.58,-121.49"), true)
  /\ fst second = (Json (ok_payload "38.58,-121.49"), true)
  /\ total (requestStats (snd first)) = 1
  /\ total (requestStats (snd second)) = 1.
Proof. cbv zeta. vm_compute. repeat split. Qed.

(** * Further properties *)

(** ** Rate limiter *)

Lemma canMakeRequest_minInterval type now this :
  minInterval (snd (canMakeRequest type now this)) = minInterval this.
Proof.
  unfold canMakeRequest. destruct type; simpl;
    match goal with |- context [if ?b then _ else _] => destruct b end;
    reflexivity.
Qed.

Lemma canMakeRequest_stamp type now this :
  lastRequestOf type (snd (canMakeRequest type now this)) = now.
Proof.
  unfold canMakeRequest. destruct type; simpl;
    match goal with |- context [if ?b then _ else _] => destruct b end;
    reflexivity.
Qed.

Lemma canMakeRequest_verdict type now this :
  fst (canMakeRequest type now this)
  = negb (now - lastRequestOf type this <? minInterval this).
Proof.
  unfold canMakeRequest. destruct type; simpl;
    match goal with |- context [if ?b then _ else _] => destruct b end;
    reflexivity.
Qed.

Lemma canMakeRequest_state type now this :
  snd (canMakeRequest type now this)
  = match type with
    | geocoding =>
        mkLimiter now (lastPlacesRequest this) (lastDetailsRequest this)
                  (minInterval this)
    | places =>
        mkLimiter (lastGeocodeRequest this) now (lastDetailsRequest this)
                  (minInterval this)
    | details =>
        mkLimiter (lastGeocodeRequest this) (lastPlacesRequest this) now
                  (minInterval this)
    end.
Proof.
  unfold canMakeRequest. destruct type; simpl;
    match goal with |- context [if ?b then _ else _] => destruct b end;
    reflexivity.
Qed.

Lemma last_cons_default {A : Type} (x : A) (l : list A) (d d' : A) :
  last (x :: l) d = last (x :: l) d'.
Proof.
  revert x. induction l as [| y r IH]; intros x; [reflexivity |].
  change (last (y :: r) d = last (y :: r) d'). apply IH.
Qed.

(** X1.  A caller that checks the rate limiter of a service again and again,
    each time less than [minInterval] after the check before, is refused
    every time, however long it goes on: every check, refused or not, moves
    the stored time forward. *)
Theorem X1_fast_polling_is_never_admitted (type : ApiType) (times : list Z)
    (this : RateLimiter) :
  gaps_below (minInterval this) (lastRequestOf type this) times ->
  Forall (fun ok => ok = false) (fst (pollAll type times this))
  /\ length (fst (pollAll type times this)) = length times
  /\ lastRequestOf type (snd (pollAll type times this))
     = last times (lastRequestOf type this).
Proof.
  revert this. induction times as [| now rest IH]; intros this Hgaps; simpl.
  - repeat split. constructor.
  - destruct Hgaps as [Hsoon Hrest].
    pose proof (canMakeRequest_verdict type now this) as Hv.
    pose proof (canMakeRequest_stamp type now this) as Hs.
    pose proof (canMakeRequest_minInterval type now this) as Hm.
    destruct (canMakeRequest type now this) as [ok this1]. simpl in Hv, Hs, Hm.
    specialize (IH this1). rewrite Hs, Hm in IH. specialize (IH Hrest).
    destruct (pollAll type rest this1) as [oks this2]. simpl in *.
    destruct IH as (Hall & Hlen & Hlast). repeat split.
    + constructor; [| exact Hall]. rewrite Hv.
      destruct (Z.ltb_spec (now - lastRequestOf type this) (minInterval this));
        [reflexivity | lia].
    + now rewrite Hlen.
    + rewrite Hlast. destruct rest; [reflexivity | apply last_cons_default].
Qed.

(** A caller that retries every 99 ms for a second. *)
Lemma X1_fast_polling_is_never_admitted_witness :
  Forall (fun ok => ok = false)
         (fst (pollAll geocoding [1099; 1198; 1297; 1396; 1495; 1594; 1693; 1792; 1891; 1990]
                       (mkLimiter 1000 0 0 100))).
Proof.
  apply (X1_fast_polling_is_never_admitted geocoding
           [1099; 1198; 1297; 1396; 1495; 1594; 1693; 1792; 1891; 1990]
           (mkLimiter 1000 0 0 100)).
  simpl. lia.
Defined.

(** X2.  The services do not throttle one another: a check for one service
    leaves the verdict of a check for another service as it would have
    been, and two checks for different services give the same state in
    either order. *)
Theorem X2_services_are_throttled_apart (type1 type2 : ApiType) (now1 now2 : Z)
    (this : RateLimiter) :
  type1 <> type2 ->
  fst (canMakeRequest type2 now2 (snd (canMakeRequest type1 now1 this)))
  = fst (canMakeRequest type2 now2 this)
  /\ snd (canMakeRequest type2 now2 (snd (canMakeRequest type1 now1 this)))
     = snd (canMakeRequest type1 now1 (snd (canMakeRequest type2 now2 this))).
Proof.
  intros Hne. rewrite !canMakeRequest_verdict, !canMakeRequest_state.
  destruct type1, type2; try congruence; split; reflexivity.
Qed.

Lemma X2_services_are_throttled_apart_witness :
  fst (canMakeRequest places 1010
         (snd (canMakeRequest geocoding 1000 (mkLimiter 0 0 0 100))))
  = fst (canMakeRequest places 1010 (mkLimiter 0 0 0 100)).
Proof.
  apply (X2_services_are_throttled_apart geocoding places 1000 1010
           (mkLimiter 0 0 0 100)).
  discriminate.
Defined.

(** ** Session reset *)

Lemma checkSessionReset_cases now st :
  (SESSION_WINDOW < now - lastReset (requestStats st)
   /\ checkSessionReset now st
      = mkServer empty_cache (resetStats now (requestStats st)) (rateLimiter st))
  \/ (now - lastReset (requestStats st) <= SESSION_WINDOW
      /\ checkSessionReset now st = st).
Proof.
  unfold checkSessionReset.
  destruct (Z.ltb_spec SESSION_WINDOW (now - lastReset (requestStats st)));
    [left | right]; split; auto.
Qed.

(** X3.  The automatic session reset and the manual one are the same
    operation: once more than 24 hours have passed since [lastReset],
    [checkSessionReset] leaves exactly the state that [POST /api/stats/reset]
    leaves (counters at zero, [limit] and the rate limiter kept, all three
    buckets empty, [lastReset] at the clock).  Before that it changes
    nothing; calling it twice is calling it once, which is what
    [GET /api/stats] does; and after a reset no further reset happens for
    the next 24 hours. *)
Theorem X3_session_reset_is_manual_reset (now : Z) (st : Server) :
  let fresh := mkServer empty_cache
                        (mkStats 0 0 0 0 (limit (requestStats st)) now)
                        (rateLimiter st) in
  snd (api_stats_reset now st) = fresh
  /\ fst (api_stats_reset now st) = requestStats fresh
  /\ (SESSION_WINDOW < now - lastReset (requestStats st) ->
      checkSessionReset now st = fresh)
  /\ (now - lastReset (requestStats st) <= SESSION_WINDOW ->
      checkSessionReset now st = st)
  /\ checkSessionReset now (checkSessionReset now st) = checkSessionReset now st
  /\ snd (api_stats now st) = checkSessionReset now st
  /\ (forall later, later - now <= SESSION_WINDOW ->
        checkSessionReset later fresh = fresh).
Proof.
  cbv zeta.
  assert (Hw : 0 <= SESSION_WINDOW) by (unfold SESSION_WINDOW; lia).
  assert (Hidem : checkSessionReset now (checkSessionReset now st)
                  = checkSessionReset now st).
  { destruct (checkSessionReset_cases now st) as [[Hlate ->] | [Hsoon ->]].
    - unfold checkSessionReset. simpl.
      destruct (Z.ltb_spec SESSION_WINDOW (now - now)); [lia | reflexivity].
    - unfold checkSessionReset.
      destruct (Z.ltb_spec SESSION_WINDOW (now - lastReset (requestStats st)));
        [lia | reflexivity]. }
  repeat split.
  - unfold api_stats_reset.
    destruct (checkSessionReset_cases now st) as [[_ ->] | [_ ->]]; reflexivity.
  - unfold api_stats_reset.
    destruct (checkSessionReset_cases now st) as [[_ ->] | [_ ->]]; reflexivity.
  - intros Hlate.
    destruct (checkSessionReset_cases now st) as [[_ ->] | [Hsoon _]];
      [reflexivity | lia].
  - intros Hsoon.
    destruct (checkSessionReset_cases now st) as [[Hlate _] | [_ ->]];
      [lia | reflexivity].
  - exact Hidem.
  - unfold api_stats. cbn [snd]. exact Hidem.
  - intros later Hlater. unfold checkSessionReset. simpl.
    destruct (Z.ltb_spec SESSION_WINDOW (later - now)); [lia | reflexivity].
Qed.

(** ** Counters *)

Lemma recordCall_stats_ok type s : stats_ok s -> stats_ok (recordCall type s).
Proof.
  unfold stats_ok. destruct type; simpl; lia.
Qed.

Lemma resetStats_stats_ok now s : stats_ok (resetStats now s).
Proof. unfold stats_ok. simpl. lia. Qed.

Lemma handleCachedRequest_start_limiter cfg type cacheKey now st :
  minInterval (rateLimiter (snd (handleCachedRequest_start cfg type cacheKey now st)))
  = minInterval (rateLimiter st).
Proof.
  unfold handleCachedRequest_start.
  destruct (cacheLookup cfg type cacheKey now (cache st)) as [[d c'] |];
    [reflexivity |].
  destruct (limit (requestStats st) <=? total (requestStats st)); [reflexivity |].
  pose proof (canMakeRequest_minInterval type now (rateLimiter st)) as H.
  destruct (canMakeRequest type now (rateLimiter st)) as [[|] rl]; exact H.
Qed.

Lemma checkSessionReset_settings now st :
  settings_ok st -> settings_ok (checkSessionReset now st).
Proof.
  intros (Hs & Hl & Hm).
  destruct (checkSessionReset_cases now st) as [[_ ->] | [_ ->]];
    [| unfold settings_ok; auto].
  repeat split; simpl; auto; lia.
Qed.

Lemma handleCachedRequest_start_settings cfg type cacheKey now st :
  settings_ok st ->
  settings_ok (snd (handleCachedRequest_start cfg type cacheKey now st)).
Proof.
  intros (Hs & Hl & Hm). unfold settings_ok.
  rewrite handleCachedRequest_start_stats, handleCachedRequest_start_limiter.
  auto.
Qed.

Lemma handleCachedRequest_finish_settings cfg type cacheKey response now st :
  settings_ok st ->
  settings_ok (snd (handleCachedRequest_finish cfg type cacheKey response now st)).
Proof.
  intros (Hs & Hl & Hm). rewrite handleCachedRequest_finish_spec.
  destruct response as [message | d]; [| destruct (is_success d)]; simpl;
    unfold settings_ok; simpl; rewrite ?recordCall_limit;
    auto using recordCall_stats_ok.
Qed.

Lemma step_settings cfg sys ev :
  settings_ok (server sys) -> settings_ok (server (step cfg sys ev)).
Proof.
  intros Hok. destruct ev as [type cacheKey now | n response now | now]; simpl.
  - pose proof (handleCachedRequest_start_settings cfg type cacheKey now
                  (checkSessionReset now (server sys))
                  (checkSessionReset_settings now _ Hok)) as H.
    destruct (handleCachedRequest_start cfg type cacheKey now
                (checkSessionReset now (server sys))) as [[d | m |] st1];
      exact H.
  - destruct (nth_error (in_flight sys) n) as [[type cacheKey] |]; [| exact Hok].
    pose proof (handleCachedRequest_finish_settings cfg type cacheKey response
                  now (server sys) Hok) as H.
    destruct (handleCachedRequest_finish cfg type cacheKey response now (server sys)).
    exact H.
  - destruct Hok as (Hs & Hl & Hm). repeat split; simpl; auto; lia.
Qed.

Lemma run_settings cfg events :
  forall sys, settings_ok (server sys) -> settings_ok (server (run cfg events sys)).
Proof.
  induction events as [| ev events IH]; intros sys Hsys; simpl; [exact Hsys |].
  apply IH. now apply step_settings.
Qed.

(** X4.  In every state the server reaches, whatever requests arrive and
    however the answers of the provider interleave with them, [total] is the
    sum of the three per-service counters, no counter is negative, [limit]
    is still 50 and [minInterval] still 100. *)
Theorem X4_counters_add_up (cfg : Config) (events : list Event) (start : Z) :
  let st := server (run cfg events (boot start)) in
  total (requestStats st)
  = count geocoding (requestStats st) + count places (requestStats st)
    + count details (requestStats st)
  /\ 0 <= count geocoding (requestStats st)
  /\ 0 <= count places (requestStats st)
  /\ 0 <= count details (requestStats st)
  /\ limit (requestStats st) = 50
  /\ minInterval (rateLimiter st) = 100.
Proof.
  cbv zeta.
  assert (H : settings_ok (server (run cfg events (boot start)))).
  { apply run_settings. repeat split; simpl; lia. }
  destruct H as ((Hsum & H1 & H2 & H3) & Hl & Hm). simpl. auto 10.
Qed.

(** ** Overlapping calls and the quota *)






(** ** The buckets and the limits *)

(** X6.  Along every trace whose clock does not run backwards, on a server
    whose limits are at least 4 entries, every bucket stays within its limit
    between two events, its keys are pairwise distinct, and no entry is
    dated later than the clock. *)
Theorem X6_buckets_stay_within_limits (cfg : Config) (events : list Event)
    (start : Z) (type : ApiType) :
  (forall t, (4 <= CACHE_LIMITS cfg t)%nat) ->
  chronological start events = true ->
  let m := bucket type (cache (server (run cfg events (boot start)))) in
  (length m <= CACHE_LIMITS cfg type)%nat
  /\ NoDup (map_keys m)
  /\ Forall (fun en => storedAt en <= last_time start events) m.
Proof.
  intros Hlim Hchron. cbv zeta.
  destruct (run_ok cfg events Hlim start (boot start) Hchron
              (cache_ok_empty cfg start) type) as (Hnd & Hlen & Hts).
  auto.
Qed.

Lemma X6_buckets_stay_within_limits_witness :
  let m := bucket geocoding
             (cache (server (run server_config overlapping_trace (boot 0)))) in
  (length m <= CACHE_LIMITS server_config geocoding)%nat
  /\ NoDup (map_keys m)
  /\ Forall (fun en => storedAt en <= last_time 0 overlapping_trace) m.
Proof.
  apply (X6_buckets_stay_within_limits server_config overlapping_trace 0 geocoding).
  - exact server_config_limits.
  - reflexivity.
Defined.

(** ** Provider calls of a batch *)

Lemma handleCachedRequest_start_Requested_stamp cfg type cacheKey now st st' :
  handleCachedRequest_start cfg type cacheKey now st = (Requested, st') ->
  lastRequestOf type (rateLimiter st') = now.
Proof.
  unfold handleCachedRequest_start.
  destruct (cacheLookup cfg type cacheKey now (cache st)) as [[d c'] |];
    [discriminate |].
  destruct (limit (requestStats st) <=? total (requestStats st));
    [discriminate |].
  pose proof (canMakeRequest_stamp type now (rateLimiter st)) as Hs.
  destruct (canMakeRequest type now (rateLimiter st)) as [[|] rl];
    [| discriminate].
  intros H. injection H as <-. exact Hs.
Qed.

(** Once the limiter has been consulted at [now], no callback that starts at
    the same clock value is admitted. *)
Lemma handleCachedRequest_start_same_tick cfg type cacheKey now st :
  0 < minInterval (rateLimiter st) ->
  lastRequestOf type (rateLimiter st) = now ->
  fst (handleCachedRequest_start cfg type cacheKey now st) <> Requested
  /\ lastRequestOf type
       (rateLimiter (snd (handleCachedRequest_start cfg type cacheKey now st)))
     = now.
Proof.
  intros Hpos Hstamp. unfold handleCachedRequest_start.
  destruct (cacheLookup cfg type cacheKey now (cache st)) as [[d c'] |];
    [split; [discriminate | exact Hstamp] |].
  destruct (limit (requestStats st) <=? total (requestStats st));
    [split; [discriminate | exact Hstamp] |].
  pose proof (canMakeRequest_verdict type now (rateLimiter st)) as Hv.
  pose proof (canMakeRequest_stamp type now (rateLimiter st)) as Hs.
  destruct (canMakeRequest type now (rateLimiter st)) as [ok rl].
  simpl in Hv, Hs. rewrite Hstamp in Hv.
  destruct (Z.ltb_spec (now - now) (minInterval (rateLimiter st))); [| lia].
  subst ok. split; [discriminate | exact Hs].
Qed.

Lemma startAll_same_tick cfg batch now :
  forall st,
    0 < minInterval (rateLimiter st) ->
    lastRequestOf geocoding (rateLimiter st) = now ->
    requested (fst (startAll cfg batch now st)) = 0%nat.
Proof.
  induction batch as [| a rest IH]; intros st Hpos Hstamp; [reflexivity |].
  cbn [startAll].
  destruct (handleCachedRequest_start_same_tick cfg geocoding
              (normalizedAddress a) now st Hpos Hstamp) as [Hno Hs].
  pose proof (handleCachedRequest_start_limiter cfg geocoding
                (normalizedAddress a) now st) as Hm.
  destruct (handleCachedRequest_start cfg geocoding (normalizedAddress a) now st)
    as [s st1]. cbn [fst snd] in *.
  specialize (IH st1). rewrite Hm in IH. specialize (IH Hpos Hs).
  destruct (startAll cfg rest now st1) as [ss st2]. cbn [fst] in *.
  unfold requested in *. cbn [filter snd].
  destruct s; [exact IH | exact IH | contradiction].
Qed.

Lemma startAll_one_call cfg batch now :
  forall st,
    0 < minInterval (rateLimiter st) ->
    (requested (fst (startAll cfg batch now st)) <= 1)%nat.
Proof.
  induction batch as [| a rest IH]; intros st Hpos; [cbn; lia |].
  cbn [startAll].
  pose proof (handleCachedRequest_start_limiter cfg geocoding
                (normalizedAddress a) now st) as Hm.
  pose proof (handleCachedRequest_start_Requested_stamp cfg geocoding
                (normalizedAddress a) now st) as Hreq.
  destruct (handleCachedRequest_start cfg geocoding (normalizedAddress a) now st)
    as [s st1]. cbn [fst snd] in *.
  assert (Hpos1 : 0 < minInterval (rateLimiter st1)) by (rewrite Hm; exact Hpos).
  pose proof (IH st1 Hpos1) as Hle.
  pose proof (startAll_same_tick cfg rest now st1 Hpos1) as Hzero.
  destruct (startAll cfg rest now st1) as [ss st2]. cbn [fst] in *.
  unfold requested in *. cbn [filter snd].
  destruct s; [exact Hle | exact Hle |].
  cbn [length]. rewrite (Hzero (Hreq st1 eq_refl)). lia.
Qed.

Lemma startAll_keeps cfg batch now :
  forall st,
    requestStats (snd (startAll cfg batch now st)) = requestStats st
    /\ minInterval (rateLimiter (snd (startAll cfg batch now st)))
       = minInterval (rateLimiter st).
Proof.
  induction batch as [| a rest IH]; intros st; [now split |].
  cbn [startAll].
  pose proof (handleCachedRequest_start_limiter cfg geocoding
                (normalizedAddress a) now st) as Hm.
  pose proof (handleCachedRequest_start_stats cfg geocoding
                (normalizedAddress a) now st) as Hs.
  destruct (handleCachedRequest_start cfg geocoding (normalizedAddress a) now st)
    as [s st1]. cbn [snd] in *.
  destruct (IH st1) as [H1 H2].
  destruct (startAll cfg rest now st1) as [ss st2]. cbn [snd] in *.
  split; congruence.
Qed.

Lemma pendingOf_length net now (started : list (string * Started)) from :
  length (pendingOf net now (combine (seq from (length started)) started))
  = requested started.
Proof.
  revert from. unfold pendingOf, requested.
  induction started as [| [a s] r IH]; intros from; [reflexivity |].
  cbn [length seq combine flat_map filter snd].
  rewrite length_app, IH.
  destruct s; cbn [length]; try reflexivity.
  destruct (net a now). reflexivity.
Qed.

Lemma finishAll_total cfg arrivals :
  forall st,
    let st' := snd (finishAll cfg arrivals st) in
    total (requestStats st) <= total (requestStats st')
    /\ total (requestStats st')
       <= total (requestStats st) + Z.of_nat (length arrivals)
    /\ rateLimiter st' = rateLimiter st.
Proof.
  induction arrivals as [| p rest IH]; intros st; cbn [finishAll length].
  - cbn. repeat split; lia.
  - rewrite handleCachedRequest_finish_spec.
    set (out := match p_response p with
                | Failed message => _
                | Answered d => _
                end).
    assert (Hout : total (requestStats st) <= total (requestStats (snd out))
                   /\ total (requestStats (snd out)) <= total (requestStats st) + 1
                   /\ rateLimiter (snd out) = rateLimiter st).
    { unfold out. destruct (p_response p) as [message | d];
        [| destruct (is_success d)]; cbn [snd requestStats rateLimiter];
        rewrite ?recordCall_total; repeat split; lia. }
    destruct out as [r st1]. cbn [snd] in Hout.
    specialize (IH st1). cbv zeta in IH.
    destruct (finishAll cfg rest st1) as [rs st2]. cbn [snd] in *.
    destruct Hout as (H1 & H2 & H3). destruct IH as (H4 & H5 & H6).
    repeat split; [lia | lia | congruence].
Qed.

(** A group calls the provider at most once. *)
Lemma runBatch_total cfg net batch now st :
  0 < minInterval (rateLimiter st) ->
  let st' := snd (runBatch cfg net batch now st) in
  total (requestStats st) <= total (requestStats st')
  /\ total (requestStats st') <= total (requestStats st) + 1
  /\ minInterval (rateLimiter st') = minInterval (rateLimiter st).
Proof.
  intros Hpos. cbv zeta. unfold runBatch.
  pose proof (startAll_one_call cfg batch now st Hpos) as Hone.
  destruct (startAll_keeps cfg batch now st) as [Hstats Hmin].
  destruct (startAll cfg batch now st) as [started st1]. cbn [fst snd] in *.
  set (arrivals := sort_by p_arrival _).
  assert (Hlen : (length arrivals <= 1)%nat).
  { unfold arrivals. now rewrite sort_by_length, pendingOf_length. }
  pose proof (finishAll_total cfg arrivals st1) as Hfin. cbv zeta in Hfin.
  destruct (finishAll cfg arrivals st1) as [finished st2]. cbn [snd] in *.
  destruct Hfin as (H1 & H2 & H3). rewrite H3, <- Hstats, Hmin.
  repeat split; lia.
Qed.

Lemma groups_step (l : list string) :
  l <> [] -> (groups (length (skipn 5 l)) + 1 = groups (length l))%nat.
Proof.
  intros Hne. unfold groups. rewrite length_skipn.
  assert (H : (1 <= length l)%nat) by (destruct l; [contradiction | simpl; lia]).
  destruct (le_lt_dec (length l) 5) as [Hsmall | Hbig].
  - replace (length l - 5)%nat with 0%nat by lia.
    assert (H1 : ((length l + 4) / 5 = 1)%nat).
    { symmetry. apply (Nat.div_unique (length l + 4) 5 1 (length l - 1)); lia. }
    rewrite H1. reflexivity.
  - replace (length l + 4)%nat with (1 * 5 + (length l - 5 + 4))%nat at 1 by lia.
    rewrite Nat.div_add_l by lia. lia.
Qed.

Lemma batchGeocode_loop_total cfg net fuel :
  forall addresses now acc st,
    0 < minInterval (rateLimiter st) ->
    let st' := snd (batchGeocode_loop cfg net fuel addresses now acc st) in
    total (requestStats st) <= total (requestStats st')
    /\ total (requestStats st')
       <= total (requestStats st) + Z.of_nat (groups (length addresses)).
Proof.
  induction fuel as [| fuel IH]; intros addresses now acc st Hpos; cbv zeta.
  - cbn. lia.
  - destruct addresses as [| a rest]; [cbn; lia |].
    cbn [batchGeocode_loop].
    pose proof (runBatch_total cfg net (firstn 5 (a :: rest)) now st Hpos) as Hb.
    cbv zeta in Hb.
    destruct (runBatch cfg net (firstn 5 (a :: rest)) now st)
      as [[batchResults settled] st1]. cbn [snd] in Hb.
    destruct Hb as (H1 & H2 & H3).
    match goal with
    | |- context [batchGeocode_loop cfg net fuel ?l ?t ?acc1 st1] =>
        pose proof (IH l t acc1 st1) as Hrest
    end.
    cbv zeta in Hrest. rewrite H3 in Hrest. specialize (Hrest Hpos).
    pose proof (groups_step (a :: rest)) as Hg.
    assert (Hne : a :: rest <> []) by discriminate. specialize (Hg Hne).
    lia.
Qed.

(** X7.  A group of a geocoding batch calls the provider at most once: its
    callbacks all start at one reading of the clock, and after the first of
    them has consulted the rate limiter every other one that misses the
    cache is refused.  So a batch of [n] addresses makes at most as many
    provider calls as it has groups of five, and [total] grows by at most
    that number. *)
Theorem X7_batch_calls_provider_once_per_group (cfg : Config) (net : Network)
    (addresses : list string) (now : Z) (st : Server) :
  0 < minInterval (rateLimiter st) ->
  (requested (fst (startAll cfg (firstn 5 addresses) now st)) <= 1)%nat
  /\ total (requestStats st)
     <= total (requestStats (snd (batchGeocode cfg net addresses now st)))
     <= total (requestStats st) + Z.of_nat ((length addresses + 4) / 5).
Proof.
  intros Hpos. split; [now apply startAll_one_call |].
  apply (batchGeocode_loop_total cfg net (length addresses) addresses now
           (mkBatchResult [] []) st Hpos).
Qed.

(** Seven new addresses: two groups, two provider calls. *)
Lemma X7_batch_calls_provider_once_per_group_witness :
  total (requestStats (initial_server 0))
  <= total (requestStats
              (snd (batchGeocode server_config sample_network sample_addresses
                                 1000 (initial_server 0))))
  <= total (requestStats (initial_server 0))
     + Z.of_nat ((length sample_addresses + 4) / 5).
Proof.
  apply (X7_batch_calls_provider_once_per_group server_config sample_network
           sample_addresses 1000 (initial_server 0)).
  simpl. lia.
Defined.

(** ** Cache keys of addresses *)

Lemma lower_lower c : lower (lower c) = lower c.
Proof. destruct c as [[] [] [] [] [] [] [] []]; reflexivity. Qed.

Lemma is_whitespace_lower c : is_whitespace (lower c) = is_whitespace c.
Proof. destruct c as [[] [] [] [] [] [] [] []]; reflexivity. Qed.

Lemma toLowerCase_idem s : toLowerCase (toLowerCase s) = toLowerCase s.
Proof.
  induction s as [| c r IH]; simpl; [reflexivity |].
  now rewrite lower_lower, IH.
Qed.

Lemma toLowerCase_app s1 s2 :
  toLowerCase (s1 ++ s2) = (toLowerCase s1 ++ toLowerCase s2)%string.
Proof.
  induction s1 as [| c r IH]; simpl; [reflexivity |]. now rewrite IH.
Qed.

Lemma all_whitespace_lower s :
  all_whitespace (toLowerCase s) = all_whitespace s.
Proof.
  induction s as [| c r IH]; simpl; [reflexivity |].
  now rewrite is_whitespace_lower, IH.
Qed.

Lemma trimStart_lower s : toLowerCase (trimStart s) = trimStart (toLowerCase s).
Proof.
  induction s as [| c r IH]; simpl; [reflexivity |].
  rewrite is_whitespace_lower. destruct (is_whitespace c); [exact IH | reflexivity].
Qed.

Lemma trimEnd_lower s : toLowerCase (trimEnd s) = trimEnd (toLowerCase s).
Proof.
  induction s as [| c r IH]; simpl; [reflexivity |].
  rewrite <- IH, is_whitespace_lower.
  destruct (trimEnd r) as [| c' r']; simpl; [| reflexivity].
  now destruct (is_whitespace c).
Qed.

Lemma trimStart_pad ws s :
  all_whitespace ws = true -> trimStart (ws ++ s) = trimStart s.
Proof.
  induction ws as [| c r IH]; simpl; intros H; [reflexivity |].
  apply andb_prop in H as [Hc Hr]. rewrite Hc. now apply IH.
Qed.

Lemma trimEnd_all_whitespace ws :
  all_whitespace ws = true -> trimEnd ws = EmptyString.
Proof.
  induction ws as [| c r IH]; simpl; intros H; [reflexivity |].
  apply andb_prop in H as [Hc Hr]. now rewrite IH, Hc.
Qed.

Lemma trimEnd_pad s ws :
  all_whitespace ws = true -> trimEnd (s ++ ws) = trimEnd s.
Proof.
  intros H. induction s as [| c r IH]; simpl.
  - now apply trimEnd_all_whitespace.
  - now rewrite IH.
Qed.

Lemma trim_pad_end s ws :
  all_whitespace ws = true ->
  trimEnd (trimStart (s ++ ws)) = trimEnd (trimStart s).
Proof.
  intros H. induction s as [| c r IH]; simpl.
  - clear - H. induction ws as [| c r IH]; simpl in *; [reflexivity |].
    apply andb_prop in H as [Hc Hr]. rewrite Hc. now apply IH.
  - destruct (is_whitespace c); [exact IH |].
    change (String c (r ++ ws)) with (String c r ++ ws)%string.
    now apply trimEnd_pad.
Qed.

Lemma trimEnd_idem s : trimEnd (trimEnd s) = trimEnd s.
Proof.
  induction s as [| c r IH]; simpl; [reflexivity |].
  destruct (trimEnd r) as [| c' r'] eqn:Hr.
  - destruct (is_whitespace c) eqn:Hc; simpl; [reflexivity | now rewrite Hc].
  - simpl in *. now rewrite IH.
Qed.

(** What [trimStart] returns does not begin with white space, and [trimEnd]
    keeps it so. *)
Lemma trimStart_trimEnd_trimStart s :
  trimStart (trimEnd (trimStart s)) = trimEnd (trimStart s).
Proof.
  induction s as [| c r IH]; simpl; [reflexivity |].
  destruct (is_whitespace c) eqn:Hc; [exact IH |].
  simpl. destruct (trimEnd r); simpl; rewrite Hc; simpl; now rewrite ?Hc.
Qed.

Lemma trim_idem s : trim (trim s) = trim s.
Proof.
  unfold trim. now rewrite trimStart_trimEnd_trimStart, trimEnd_idem.
Qed.

(** X8.  For an address of ASCII characters, the cache key does not depend
    on white space (spaces, tabs, line ends) around the address nor on the
    case of its letters, and normalising a key again does not change it:
    the same place typed in these ways is geocoded once. *)
Theorem X8_address_key_ignores_padding_and_case (before after address : string) :
  ascii_only address = true ->
  all_whitespace before = true ->
  all_whitespace after = true ->
  normalizedAddress (before ++ address ++ after) = normalizedAddress address
  /\ normalizedAddress (toLowerCase address) = normalizedAddress address
  /\ normalizedAddress (normalizedAddress address) = normalizedAddress address.
Proof.
  intros _ Hb Ha. unfold normalizedAddress. repeat split.
  - rewrite !toLowerCase_app. unfold trim.
    rewrite trimStart_pad by now rewrite all_whitespace_lower.
    apply trim_pad_end. now rewrite all_whitespace_lower.
  - now rewrite toLowerCase_idem.
  - unfold trim at 2. rewrite trimEnd_lower, trimStart_lower, toLowerCase_idem.
    apply trim_idem.
Qed.

Lemma X8_address_key_ignores_padding_and_case_witness :
  normalizedAddress ("  " ++ "1 Main St" ++ " ") = normalizedAddress "1 Main St".
Proof.
  apply (X8_address_key_ignores_padding_and_case "  " " " "1 Main St");
    reflexivity.
Defined.

(** ** The preview of the API key *)

Lemma string_length_app (a b : string) :
  String.length (a ++ b) = (String.length a + String.length b)%nat.
Proof. induction a as [| c r IH]; simpl; [reflexivity | now rewrite IH]. Qed.

Lemma substring_prefix (a r : string) :
  String.substring 0 (String.length a) (a ++ r) = a.
Proof.
  induction a as [| c a IH]; simpl; [now destruct r | now rewrite IH].
Qed.

Lemma substring_whole (s : string) (m : nat) :
  (String.length s <= m)%nat -> String.substring 0 m s = s.
Proof.
  revert m. induction s as [| c s IH]; intros m Hm; simpl.
  - now destruct m.
  - destruct m as [| m]; simpl in *; [lia |]. rewrite IH by lia. reflexivity.
Qed.

Lemma substring_skip (a r : string) (m : nat) :
  String.substring (String.length a) m (a ++ r) = String.substring 0 m r.
Proof. induction a as [| c a IH]; simpl; [reflexivity | exact IH]. Qed.

(** X9.  The preview of an API key of at least eight characters shows its
    first four and its last four characters and nothing that depends on the
    characters between them; a key of at most four characters is shown
    whole, twice. *)
Theorem X9_key_preview_hides_the_middle (first middle final short : string) :
  String.length first = 4%nat ->
  String.length final = 4%nat ->
  (String.length short <= 4)%nat ->
  keyPreview (first ++ middle ++ final) = (first ++ "..." ++ final)%string
  /\ keyPreview short = (short ++ "..." ++ short)%string.
Proof.
  intros Hf Hl Hs. unfold keyPreview, js_substring. cbv zeta. split.
  - rewrite !string_length_app, Hf, Hl.
    set (n := String.length middle).
    replace (Z.min (Z.max 0 0) (Z.of_nat (4 + (n + 4)))) with 0 by lia.
    replace (Z.min (Z.max 4 0) (Z.of_nat (4 + (n + 4)))) with 4 by lia.
    replace (Z.min (Z.max (Z.of_nat (4 + (n + 4)) - 4) 0) (Z.of_nat (4 + (n + 4))))
      with (Z.of_nat (4 + n)) by lia.
    replace (Z.to_nat (Z.min 0 4)) with 0%nat by lia.
    replace (Z.to_nat (Z.max 0 4 - Z.min 0 4)) with (String.length first) by lia.
    rewrite substring_prefix.
    replace (Z.to_nat (Z.min (Z.of_nat (4 + n)) (Z.of_nat (4 + (n + 4)))))
      with (String.length (first ++ middle))
      by (rewrite string_length_app; fold n; lia).
    replace (Z.to_nat (Z.max (Z.of_nat (4 + n)) (Z.of_nat (4 + (n + 4)))
                       - Z.min (Z.of_nat (4 + n)) (Z.of_nat (4 + (n + 4)))))
      with (String.length final) by lia.
    replace (first ++ middle ++ final)%string
      with ((first ++ middle) ++ final)%string
      by (clear; induction first; simpl; congruence).
    rewrite substring_skip, (substring_whole final) by lia. reflexivity.
  - set (n := String.length short) in *.
    replace (Z.to_nat (Z.min (Z.min (Z.max 0 0) (Z.of_nat n))
                             (Z.min (Z.max 4 0) (Z.of_nat n)))) with 0%nat by lia.
    replace (Z.to_nat (Z.max (Z.min (Z.max 0 0) (Z.of_nat n))
                             (Z.min (Z.max 4 0) (Z.of_nat n))
                       - Z.min (Z.min (Z.max 0 0) (Z.of_nat n))
                               (Z.min (Z.max 4 0) (Z.of_nat n)))) with n by lia.
    replace (Z.to_nat (Z.min (Z.min (Z.max (Z.of_nat n - 4) 0) (Z.of_nat n))
                             (Z.of_nat n))) with 0%nat by lia.
    replace (Z.to_nat (Z.max (Z.min (Z.max (Z.of_nat n - 4) 0) (Z.of_nat n))
                             (Z.of_nat n)
                       - Z.min (Z.min (Z.max (Z.of_nat n - 4) 0) (Z.of_nat n))
                               (Z.of_nat n))) with n by lia.
    now rewrite substring_whole by (fold n; lia).
Qed.

Lemma X9_key_preview_hides_the_middle_witness :
  keyPreview ("AIza" ++ "SyD-secret-part-of-the-key" ++ "9xQ7")
  = ("AIza" ++ "..." ++ "9xQ7")%string
  /\ keyPreview "abc" = ("abc" ++ "..." ++ "abc")%string.
Proof.
  apply (X9_key_preview_hides_the_middle "AIza" "SyD-secret-part-of-the-key"
           "9xQ7" "abc"); simpl; lia.
Defined.

(** ** The address form *)

Lemma getCoordinatesWithRetry_step responses attempt address retries delay :
  getCoordinatesWithRetry responses attempt address retries delay
  = match fst (fetchCoordinates address (responses attempt)), retries with
    | inl c, _ =>
        mkRetried (inl c) 1
          (if snd (fetchCoordinates address (responses attempt)) then 1 else 0) 0
    | inr e, O =>
        mkRetried (inr e) 1
          (if snd (fetchCoordinates address (responses attempt)) then 1 else 0) 0
    | inr e, S retries' =>
        let rest := getCoordinatesWithRetry responses (S attempt) address
                                            retries' (delay * 2) in
        mkRetried (outcome rest) (S (attempts rest))
          ((if snd (fetchCoordinates address (responses attempt)) then 1 else 0)
           + requests rest)
          (delay + waited rest)
    end.
Proof.
  destruct retries; simpl;
    destruct (fetchCoordinates address (responses attempt)) as [[c | e] sent];
    reflexivity.
Qed.

(** X10.  [getCoordinatesWithRetry] calls [fetchCoordinates] until a call
    succeeds or [retries + 1] calls have failed, whatever the failure is; it
    returns what the last call returned; and before the call number [k + 1]
    it has waited [delay * (2^k - 1)] in all.  With the defaults of the form
    (2 retries, 1000 ms) an error is shown after three calls and 3000 ms of
    waiting. *)
Theorem X10_retry_schedule (responses : nat -> HttpResponse) (address : string)
    (retries : nat) :
  forall (attempt : nat) (delay : Z),
    let r := getCoordinatesWithRetry responses attempt address retries delay in
    (1 <= attempts r <= S retries)%nat
    /\ (requests r <= attempts r)%nat
    /\ waited r = delay * (2 ^ Z.of_nat (attempts r - 1) - 1)
    /\ outcome r
       = fst (fetchCoordinates address (responses (attempt + attempts r - 1)%nat))
    /\ (forall k, (k < attempts r - 1)%nat ->
          exists e,
            fst (fetchCoordinates address (responses (attempt + k)%nat)) = inr e)
    /\ (forall e, outcome r = inr e -> attempts r = S retries).
Proof.
  induction retries as [| retries IH]; intros attempt delay; cbv zeta;
    rewrite getCoordinatesWithRetry_step.
  - destruct (fetchCoordinates address (responses attempt)) as [[c | e] sent] eqn:Hf;
      cbn [fst snd outcome attempts requests waited];
      replace (attempt + 1 - 1)%nat with attempt by lia; rewrite Hf;
      change (2 ^ Z.of_nat (1 - 1)) with 1;
      (split; [lia |]); (split; [destruct sent; lia |]); (split; [lia |]);
      (split; [reflexivity |]); (split; [intros k Hk; lia |]).
    + intros e Hc. discriminate.
    + reflexivity.
  - destruct (fetchCoordinates address (responses attempt)) as [[c | e] sent] eqn:Hf;
      cbn [fst snd].
    + cbn [outcome attempts requests waited].
      replace (attempt + 1 - 1)%nat with attempt by lia. rewrite Hf.
      change (2 ^ Z.of_nat (1 - 1)) with 1.
      (split; [lia |]); (split; [destruct sent; lia |]); (split; [lia |]);
      (split; [reflexivity |]); (split; [intros k Hk; lia |]).
      intros e Hc. discriminate.
    + specialize (IH (S attempt) (delay * 2)). cbv zeta in IH.
      set (rest := getCoordinatesWithRetry responses (S attempt) address retries
                                           (delay * 2)) in *.
      destruct IH as (Ha & Hr & Hw & Ho & Hfail & Hgive).
      cbv zeta. cbn [outcome attempts requests waited].
      repeat split.
      * lia.
      * lia.
      * destruct sent; lia.
      * rewrite Hw. destruct (attempts rest) as [| a]; [lia |].
        replace (S (S a) - 1)%nat with (S a) by lia.
        replace (S a - 1)%nat with a by lia.
        rewrite Nat2Z.inj_succ, Z.pow_succ_r by lia. ring.
      * rewrite Ho. f_equal. f_equal. f_equal. lia.
      * intros k Hk. destruct k as [| k].
        -- exists e. replace (attempt + 0)%nat with attempt by lia. now rewrite Hf.
        -- destruct (Hfail k) as [e' He']; [lia |]. exists e'.
           replace (attempt + S k)%nat with (S attempt + k)%nat by lia. exact He'.
      * intros e' He'. now rewrite (Hgive e' He').
Qed.

(** X11.  An address that is blank is refused by [fetchCoordinates] before
    any request is sent, and the refusal is retried like any other failure:
    with the defaults of the form the message comes after three calls and
    3000 ms, without a single request. *)
Theorem X11_blank_address_is_retried (responses : nat -> HttpResponse)
    (address : string) (retries : nat) :
  trim address = EmptyString ->
  (forall response,
      fetchCoordinates address response = (inr "Address cannot be empty", false))
  /\ forall attempt delay,
       getCoordinatesWithRetry responses attempt address retries delay
       = mkRetried (inr "Address cannot be empty") (S retries) 0
                   (delay * (2 ^ Z.of_nat retries - 1)).
Proof.
  intros Hblank.
  assert (Hf : forall response,
             fetchCoordinates address response
             = (inr "Address cannot be empty", false)).
  { intros response. unfold fetchCoordinates. now rewrite Hblank. }
  split; [exact Hf |].
  induction retries as [| retries IH]; intros attempt delay;
    rewrite getCoordinatesWithRetry_step, Hf; cbn [fst snd].
  - f_equal. simpl. lia.
  - cbv zeta. rewrite IH. cbn [outcome attempts requests waited]. f_equal.
    rewrite Nat2Z.inj_succ, Z.pow_succ_r by lia. ring.
Qed.

Lemma X11_blank_address_is_retried_witness :
  getCoordinatesWithRetry (fun _ => NoResponse "unused") 0 "   " 2 1000
  = mkRetried (inr "Address cannot be empty") 3 0 (1000 * (2 ^ Z.of_nat 2 - 1)).
Proof.
  apply (X11_blank_address_is_retried (fun _ => NoResponse "unused") "   " 2).
  reflexivity.
Defined.

(** X12.  For an address of ASCII characters, [fetchCoordinates] returns
    coordinates in one case only: the address is not blank, the server
    answered with a 2xx status and a JSON body whose [status] is [OK], and
    the first result has a location.  The coordinates are those of that
    location, and [originalAddress] is the address as it was typed. *)
Theorem X12_coordinates_only_from_an_OK_answer (address : string)
    (response : HttpResponse) (c : Coordinates) :
  ascii_only address = true ->
  (fst (fetchCoordinates address response) = inl c
   <-> trim address <> EmptyString
       /\ exists l, response = OkJson "OK" (Found l)
                    /\ c = mkCoordinates (lat l) (lng l) address).
Proof.
  intros _. unfold fetchCoordinates.
  destruct (String.eqb_spec (trim address) "") as [Hb | Hnb]; cbn [fst].
  - split; [discriminate | intros [H _]; contradiction].
  - split.
    + intros H. split; [exact Hnb |].
      destruct response as [m | code st [[e |] |] | m | ds loc];
        try discriminate.
      * destruct (e =? "")%string; discriminate.
      * destruct (String.eqb_spec ds "ZERO_RESULTS"); [discriminate |].
        destruct (String.eqb_spec ds "OK") as [-> | Hne]; [| discriminate].
        cbn [negb] in H. destruct loc as [l | | m]; try discriminate.
        exists l. split; [reflexivity | congruence].
    + intros (_ & l & -> & ->). reflexivity.
Qed.

(** An address that the server locates. *)
Lemma X12_coordinates_only_from_an_OK_answer_witness :
  fst (fetchCoordinates "1 Main St"
         (OkJson "OK" (Found (mkLatLng 38.5 (-121.5)))))
  = inl (mkCoordinates 38.5 (-121.5) "1 Main St").
Proof.
  apply (proj2 (X12_coordinates_only_from_an_OK_answer "1 Main St"
                  (OkJson "OK" (Found (mkLatLng 38.5 (-121.5))))
                  (mkCoordinates 38.5 (-121.5) "1 Main St") eq_refl)).
  split; [discriminate |].
  exists (mkLatLng 38.5 (-121.5)). split; reflexivity.
Defined.

(** ** Star ratings *)

Lemma Qfloor_unique (y : Q) (n : Z) :
  (inject_Z n <= y)%Q -> (y < inject_Z n + 1)%Q -> Qfloor y = n.
Proof.
  intros Hle Hlt.
  assert (H1 : n <= Qfloor y).
  { rewrite <- (Qfloor_Z n). now apply Qfloor_resp_le. }
  assert (H2 : Qfloor y < n + 1).
  { rewrite Zlt_Qlt, inject_Z_plus.
    eapply Qle_lt_trans; [apply Qfloor_le | exact Hlt]. }
  lia.
Qed.

Lemma rating_facts (rating : Q) :
  (0 <= rating)%Q -> (rating <= 5)%Q ->
  let f := Qfloor rating in
  let h := Qle_bool (1 # 2) (rating - inject_Z f) in
  0 <= f <= 5
  /\ (f = 5 -> h = false)
  /\ Qfloor (rating + (1 # 2)) = f + (if h then 1 else 0).
Proof.
  intros H0 H5. cbv zeta.
  pose proof (Qfloor_le rating) as Hlo.
  pose proof (Qlt_floor rating) as Hhi. rewrite inject_Z_plus in Hhi.
  change (inject_Z 1) with 1%Q in Hhi.
  assert (Hf0 : 0 <= Qfloor rating).
  { change 0 with (Qfloor 0). now apply Qfloor_resp_le. }
  assert (Hf5 : Qfloor rating <= 5).
  { change 5 with (Qfloor 5). now apply Qfloor_resp_le. }
  remember (Qfloor rating) as f eqn:Ef. clear Ef.
  destruct (Qle_bool (1 # 2) (rating - inject_Z f)) eqn:Hh.
  - apply Qle_bool_iff in Hh. repeat split; try lia.
    + intros ->. exfalso. change (inject_Z 5) with 5%Q in *. lra.
    + apply Qfloor_unique; rewrite ?inject_Z_plus;
        change (inject_Z 1) with 1%Q; lra.
  - assert (Hlt : (rating - inject_Z f < 1 # 2)%Q).
    { apply Qnot_le_lt. intros Hc. apply Qle_bool_iff in Hc. congruence. }
    repeat split; try lia.
    apply Qfloor_unique; rewrite ?Z.add_0_r; lra.
Qed.

(** X13.  For a rating above 0 and at most 5 the info window draws exactly
    five stars, and their colours, full and half stars being yellow, are
    star by star those of the list of restaurants, where star [i] is yellow
    when [i < Math.round(rating)]: the two views agree.  At a rating of 0
    they differ: the info window draws five grey stars and the list, whose
    stars are under [restaurant.rating && ...], draws none. *)
Theorem X13_five_stars_in_both_views (rating : Q) :
  (0 < rating)%Q -> (rating <= 5)%Q ->
  (length (ratingStars rating) = 5%nat
   /\ map yellow (ratingStars rating) = listStars rating)
  /\ ratingStars 0 = repeat EmptyStar 5
  /\ listStars 0 = [].
Proof.
  intros Hpos H5. split; [| split; reflexivity].
  assert (H0 : (0 <= rating)%Q) by now apply Qlt_le_weak.
  assert (Hnz : Qeq_bool rating 0 = false).
  { destruct (Qeq_bool rating 0) eqn:Hz; [| reflexivity].
    apply Qeq_bool_iff in Hz. rewrite Hz in Hpos.
    exfalso. exact (Qlt_irrefl 0 Hpos). }
  destruct (rating_facts rating H0 H5) as (Hf & Hfull & Hround).
  cbv zeta in *. unfold ratingStars, listStars. rewrite Hnz.
  cbv zeta. rewrite Hround.
  set (f := Qfloor rating) in *.
  set (h := Qle_bool (1 # 2) (rating - inject_Z f)) in *.
  assert (Hcases : f = 0 \/ f = 1 \/ f = 2 \/ f = 3 \/ f = 4 \/ f = 5) by lia.
  clearbody f h.
  destruct Hcases as [-> | [-> | [-> | [-> | [-> | ->]]]]];
    try (destruct h; split; reflexivity).
  rewrite (Hfull eq_refl). split; reflexivity.
Qed.

(** A rating of 4.5: four full stars and a half one, five yellow stars in
    the list. *)
Lemma X13_five_stars_in_both_views_witness :
  length (ratingStars (9 # 2)) = 5%nat
  /\ map yellow (ratingStars (9 # 2)) = listStars (9 # 2).
Proof.
  refine (proj1 (X13_five_stars_in_both_views (9 # 2) _ _)).
  - reflexivity.
  - discriminate.
Defined.

(** ** Batches of place details *)




(** The loop of [batchGeocode] is this loop for the geocoding service and
    the normalised address. *)
Lemma batchGeocode_loop_is_batchLoopFor cfg net fuel :
  forall addresses now acc st,
    batchGeocode_loop cfg net fuel addresses now acc st
    = batchLoopFor cfg geocoding normalizedAddress net fuel addresses now acc st.
Proof.
  assert (Hstart : forall batch now st,
             startAll cfg batch now st
             = startAllFor cfg geocoding normalizedAddress batch now st).
  { induction batch as [| a rest IH]; intros now st; simpl; [reflexivity |].
    destruct (handleCachedRequest_start cfg geocoding (normalizedAddress a) now st).
    now rewrite IH. }
  assert (Hfinish : forall arrivals st,
             finishAll cfg arrivals st
             = finishAllFor cfg geocoding normalizedAddress arrivals st).
  { induction arrivals as [| p rest IH]; intros st; simpl; [reflexivity |].
    destruct (handleCachedRequest_finish cfg geocoding _ _ _ st).
    now rewrite IH. }
  assert (Hrun : forall batch now st,
             runBatch cfg net batch now st
             = runBatchFor cfg geocoding normalizedAddress net batch now st).
  { intros batch now st. unfold runBatch, runBatchFor. rewrite Hstart.
    destruct (startAllFor cfg geocoding normalizedAddress batch now st).
    now rewrite Hfinish. }
  induction fuel as [| fuel IH]; intros addresses now acc st; [reflexivity |].
  destruct addresses as [| a rest]; [reflexivity |].
  cbn [batchGeocode_loop batchLoopFor]. rewrite Hrun.
  destruct (runBatchFor cfg geocoding normalizedAddress net (firstn 5 (a :: rest))
                        now st) as [[batchResults settled] st1].
  apply IH.
Qed.



(** ** A batch that is already cached *)

Lemma fresh_served cfg type deadline c c' key :
  served type c' key = served type c key ->
  fresh_until cfg type deadline c key -> fresh_until cfg type deadline c' key.
Proof.
  unfold served, fresh_until. intros Hs (e & He & Hd). rewrite He in Hs.
  destruct (map_get key (bucket type c')) as [e' |]; [| discriminate].
  simpl in Hs. injection Hs as Hdata Hts. exists e'. split; [reflexivity | lia].
Qed.

Lemma cached_served type c c' key :
  served type c' key = served type c key -> cached type c' key = cached type c key.
Proof.
  unfold served, cached.
  destruct (map_get key (bucket type c')), (map_get key (bucket type c));
    simpl; congruence.
Qed.

(** A hit leaves what the bucket serves, the counters and the rate limiter
    as they are. *)
Lemma handleCachedRequest_start_fresh cfg type key now st :
  fresh_until cfg type now (cache st) key ->
  exists d st',
    handleCachedRequest_start cfg type key now st = (CacheHit d, st')
    /\ cached type (cache st) key = Some d
    /\ requestStats st' = requestStats st
    /\ rateLimiter st' = rateLimiter st
    /\ forall k, served type (cache st') k = served type (cache st) k.
Proof.
  intros (e & He & Hd). unfold handleCachedRequest_start, cacheLookup.
  rewrite He. destruct (Z.ltb_spec (now - timestamp e) (CACHE_EXPIRY cfg type));
    [| lia].
  eexists. eexists. split; [reflexivity |].
  unfold cached, served. rewrite He. cbn [cache requestStats rateLimiter].
  repeat split. intros k. rewrite bucket_set_bucket.
  destruct (string_dec k key) as [-> | Hne].
  - now rewrite map_get_set_same, He.
  - now rewrite map_get_set_other.
Qed.

Lemma startAllFor_fresh cfg type keyOf now batch :
  forall st,
    (forall item, In item batch -> fresh_until cfg type now (cache st) (keyOf item)) ->
    exists st',
      startAllFor cfg type keyOf batch now st
      = (map (fun item =>
                (item, match cached type (cache st) (keyOf item) with
                       | Some d => CacheHit d
                       | None => Requested
                       end)) batch, st')
      /\ (forall item, In item batch -> cached type (cache st) (keyOf item) <> None)
      /\ requestStats st' = requestStats st
      /\ rateLimiter st' = rateLimiter st
      /\ forall k, served type (cache st') k = served type (cache st) k.
Proof.
  induction batch as [| a rest IH]; intros st Hfresh; cbn [startAllFor map].
  - exists st. repeat split. intros item [].
  - destruct (handleCachedRequest_start_fresh cfg type (keyOf a) now st
                (Hfresh a (or_introl eq_refl)))
      as (d & st1 & Hstart & Hd & Hstats & Hlim & Hserved).
    rewrite Hstart.
    destruct (IH st1) as (st2 & Hrest & Hsome & Hstats2 & Hlim2 & Hserved2).
    { intros item Hin. apply (fresh_served cfg type now (cache st));
        [apply Hserved | apply Hfresh; now right]. }
    rewrite Hrest. exists st2. rewrite Hd.
    split; [| split; [| split; [| split]]].
    + f_equal. f_equal. apply map_ext. intros item.
      now rewrite (cached_served type (cache st) (cache st1) (keyOf item)
                     (Hserved _)).
    + intros item [<- | Hin]; [congruence |].
      rewrite <- (cached_served type (cache st) (cache st1) (keyOf item)
                    (Hserved _)).
      now apply Hsome.
    + congruence.
    + congruence.
    + intros k. now rewrite Hserved2, Hserved.
Qed.

Lemma classify_cached type c keyOf batch acc :
  fold_left classify
    (map (fun item => match cached type c (keyOf item) with
                      | Some d => ItemData item d
                      | None => ItemError item EmptyString
                      end) batch) acc
  = mkBatchResult
      (results acc ++ map (fun item => (item, cached type c (keyOf item))) batch)
      (errors acc).
Proof.
  revert acc. induction batch as [| a rest IH]; intros acc; cbn [map fold_left].
  - rewrite app_nil_r. now destruct acc.
  - rewrite IH. destruct (cached type c (keyOf a)) as [d |]; cbn;
      now rewrite <- app_assoc.
Qed.

Lemma settle_cached type c keyOf finished batch from :
  (forall item, In item batch -> cached type c (keyOf item) <> None) ->
  map (fun '(i, (a, s)) => settle finished i a s)
      (combine (seq from (length batch))
               (map (fun item => (item, match cached type c (keyOf item) with
                                        | Some d => CacheHit d
                                        | None => Requested
                                        end)) batch))
  = map (fun item => match cached type c (keyOf item) with
                     | Some d => ItemData item d
                     | None => ItemError item EmptyString
                     end) batch.
Proof.
  revert from. induction batch as [| a rest IH]; intros from Hsome;
    [reflexivity |].
  cbn [length seq map combine]. rewrite IH by (intros; apply Hsome; now right).
  f_equal. specialize (Hsome a (or_introl eq_refl)).
  destruct (cached type c (keyOf a)); [reflexivity | contradiction].
Qed.

Lemma requested_cached type c keyOf batch :
  (forall item, In item batch -> cached type c (keyOf item) <> None) ->
  requested (map (fun item => (item, match cached type c (keyOf item) with
                                     | Some d => CacheHit d
                                     | None => Requested
                                     end)) batch) = 0%nat.
Proof.
  unfold requested. induction batch as [| a rest IH]; intros Hsome;
    [reflexivity |].
  cbn [map filter snd]. specialize (IH (fun i H => Hsome i (or_intror H))).
  pose proof (Hsome a (or_introl eq_refl)) as Ha.
  destruct (cached type c (keyOf a)); [exact IH | contradiction].
Qed.

(** A group whose items are all served by the cache settles at once, with
    every item in [batchResults]. *)
Lemma runBatchFor_fresh cfg type keyOf net now batch st :
  (forall item, In item batch -> fresh_until cfg type now (cache st) (keyOf item)) ->
  exists st',
    runBatchFor cfg type keyOf net batch now st
    = (map (fun item => match cached type (cache st) (keyOf item) with
                        | Some d => ItemData item d
                        | None => ItemError item EmptyString
                        end) batch, now, st')
    /\ (forall item, In item batch -> cached type (cache st) (keyOf item) <> None)
    /\ requestStats st' = requestStats st
    /\ rateLimiter st' = rateLimiter st
    /\ forall k, served type (cache st') k = served type (cache st) k.
Proof.
  intros Hfresh. unfold runBatchFor.
  destruct (startAllFor_fresh cfg type keyOf now batch st Hfresh)
    as (st1 & Hstart & Hsome & Hstats & Hlim & Hserved).
  rewrite Hstart. rewrite length_map.
  assert (Hnone : pendingOf net now
                    (combine (seq 0 (length batch))
                       (map (fun item =>
                               (item, match cached type (cache st) (keyOf item) with
                                      | Some d => CacheHit d
                                      | None => Requested
                                      end)) batch)) = []).
  { apply length_zero_iff_nil.
    rewrite <- (length_map (fun item =>
                              (item, match cached type (cache st) (keyOf item) with
                                     | Some d => CacheHit d
                                     | None => Requested
                                     end)) batch) at 1.
    rewrite pendingOf_length. now apply requested_cached. }
  rewrite Hnone. cbn [sort_by finishAllFor map fold_left].
  exists st1. rewrite settle_cached by exact Hsome. auto.
Qed.

Lemma batchLoopFor_fresh cfg type keyOf net fuel :
  forall items now acc st,
    (length items <= fuel)%nat ->
    (forall item, In item items ->
       fresh_until cfg type (now + 200 * Z.of_nat (groups (length items)))
                   (cache st) (keyOf item)) ->
    exists st',
      batchLoopFor cfg type keyOf net fuel items now acc st
      = (mkBatchResult
           (results acc
            ++ map (fun item => (item, cached type (cache st) (keyOf item))) items)
           (errors acc), st')
      /\ (forall item, In item items -> cached type (cache st) (keyOf item) <> None)
      /\ requestStats st' = requestStats st
      /\ rateLimiter st' = rateLimiter st.
Proof.
  induction fuel as [| fuel IH]; intros items now acc st Hlen Hfresh.
  - destruct items; [| simpl in Hlen; lia].
    exists st. cbn. rewrite app_nil_r. destruct acc. repeat split. intros item [].
  - destruct items as [| a rest].
    + exists st. cbn. rewrite app_nil_r. destruct acc. repeat split.
      intros item [].
    + set (items := a :: rest) in *.
      assert (Hne : items <> []) by discriminate.
      pose proof (groups_step items Hne) as Hg.
      assert (Hnow : forall item, In item (firstn 5 items) ->
                       fresh_until cfg type now (cache st) (keyOf item)).
      { intros item Hin. apply firstn_incl in Hin.
        destruct (Hfresh item Hin) as (e & He & Hd). exists e.
        split; [exact He | lia]. }
      destruct (runBatchFor_fresh cfg type keyOf net now (firstn 5 items) st Hnow)
        as (st1 & Hrun & Hsome1 & Hstats1 & Hlim1 & Hserved).
      unfold items at 1. cbn [batchLoopFor]. fold items.
      rewrite Hrun, classify_cached.
      match goal with
      | |- context [batchLoopFor cfg type keyOf net fuel ?l ?t ?acc1 st1] =>
          destruct (IH l t acc1 st1) as (st2 & Hloop & Hsome2 & Hstats2 & Hlim2)
      end.
      { rewrite length_skipn. unfold items in *. simpl in Hlen. simpl length. lia. }
      { intros item Hin.
        apply (fresh_served cfg type _ (cache st)); [apply Hserved |].
        destruct (Hfresh item (In_skipn 5 items item Hin)) as (e & He & Hd).
        exists e. split; [exact He |].
        revert Hg Hin. destruct (skipn 5 items) as [| b more];
          intros Hg Hin; [contradiction |]. lia. }
      rewrite Hloop. exists st2. cbn [results errors].
      split; [| split; [| split; congruence]].
      * f_equal. f_equal. rewrite <- app_assoc. f_equal.
        rewrite <- (firstn_skipn 5 items) at 3. rewrite map_app. f_equal.
        apply map_ext. intros item.
        now rewrite (cached_served type (cache st) (cache st1) (keyOf item)
                       (Hserved _)).
      * intros item Hin. rewrite <- (firstn_skipn 5 items) in Hin.
        apply in_app_or in Hin as [Hin | Hin]; [now apply Hsome1 |].
        rewrite <- (cached_served type (cache st) (cache st1) (keyOf item)
                      (Hserved _)).
        now apply Hsome2.
Qed.

(** X15.  A geocoding batch whose addresses are all in the cache, and stay
    served until the last group has started, costs nothing: every address
    comes back in [results] with its cached payload, in the order of the
    input, [errors] is empty, and neither the counters nor the rate limiter
    change, whatever [total] is. *)
Theorem X15_cached_batch_is_free (cfg : Config) (net : Network)
    (addresses : list string) (now : Z) (st : Server) :
  (forall a, In a addresses ->
     fresh_until cfg geocoding
                 (now + 200 * Z.of_nat (groups (length addresses)))
                 (cache st) (normalizedAddress a)) ->
  exists st',
    batchGeocode cfg net addresses now st
    = (mkBatchResult
         (map (fun a => (a, cached geocoding (cache st) (normalizedAddress a)))
              addresses) [], st')
    /\ (forall a, In a addresses ->
          cached geocoding (cache st) (normalizedAddress a) <> None)
    /\ requestStats st' = requestStats st
    /\ rateLimiter st' = rateLimiter st.
Proof.
  intros Hfresh. unfold batchGeocode.
  rewrite batchGeocode_loop_is_batchLoopFor.
  apply (batchLoopFor_fresh cfg geocoding normalizedAddress net (length addresses)
           addresses now (mkBatchResult [] []) st (le_n _) Hfresh).
Qed.

(** Two cached addresses, typed with other case and padding, asked for when
    the quota is used up. *)
Lemma X15_cached_batch_is_free_witness :
  exists st',
    batchGeocode server_config sample_network ["1 Main St"; " 2 OAK AVE "] 1000
                 warm_server
    = (mkBatchResult
         (map (fun a => (a, cached geocoding (cache warm_server)
                                   (normalizedAddress a)))
              ["1 Main St"; " 2 OAK AVE "]) [], st')
    /\ (forall a, In a ["1 Main St"; " 2 OAK AVE "] ->
          cached geocoding (cache warm_server) (normalizedAddress a) <> None)
    /\ requestStats st' = requestStats warm_server
    /\ rateLimiter st' = rateLimiter warm_server.
Proof.
  apply (X15_cached_batch_is_free server_config sample_network
           ["1 Main St"; " 2 OAK AVE "] 1000 warm_server).
  intros a [<- | [<- | []]]; eexists; (split; [reflexivity | simpl; lia]).
Defined.
